(** * ansibleinv-digitalocean: the inventory generator of [do.go]

    A shallow embedding of the inventory construction loop of
    [createInventory] and of [printInventory], with the properties the
    specification states about them.

    Go maps are finite maps ([gmap], keyed by [string]); Go slices are
    lists, [append] adds at the end; a value of type [interface{}] is a
    term of the universe [iface]; a run-time panic is the [Panic] outcome
    of the [result] type. *)

From Stdlib Require Import ZArith Ascii.
From stdpp Require Import ssreflect gmap strings list fin_maps sorting.

Set Warnings "-register-all,-rewrite-rw,-clear-no-such-hyp".

(** ** Constants *)

(** [const ansibleGroupPrefix string = "do_"] *)
Definition ansibleGroupPrefix : string := "do_".

(** The key under which [printInventory] stores [ai.Meta], and the key
    the address of a host is stored under. *)
Definition metaKey : string := "_meta".
Definition ansibleHostKey : string := "ansible_host".

(** ** Data model *)

(** [float64], as far as the JSON encoder tells its values apart: a finite
    number (with the decimal text the encoder prints), NaN, or an infinity. *)
Inductive float64 : Set :=
  | F64Finite (repr : string)
  | F64NaN
  | F64Inf (negative : bool).

(** The values of type [interface{}] that can sit in [Vars] and [Hostvars]. *)
Inductive iface :=
  | INil
  | IBool (b : bool)
  | IString (s : string)
  | IFloat (x : float64)
  | ISlice (l : list iface)
  | IMap (m : gmap string iface).

(** The entries of [droplet.Networks.V4]. *)
Record netV4 := {
  v4_IpAddress : string;
  v4_Netmask : string;
  v4_Gateway : string;
  v4_Type : string;
}.

(** The entries of [droplet.Networks.V6]. *)
Record netV6 := {
  v6_IpAddress : string;
  v6_Netmask : Z;
  v6_Gateway : string;
  v6_Type : string;
}.

Record networks := { V4 : list netV4; V6 : list netV6 }.

Record region := { Slug : string; region_Name : string }.

Record image := { image_id : Z; image_name : string }.

(** [type droplet struct] *)
Record droplet := {
  Id : Z;
  Name : string;
  Features : list string;
  Region : region;
  Image : image;
  Networks : networks;
  Tags : list string;
}.

(** [type ansibleGroup struct]. A [nil] map and an empty one are both the
    empty [gmap]; [Vars] and [Children] are never written by this program. *)
Record ansibleGroup := {
  Hosts : list string;
  Vars : gmap string iface;
  Children : list string;
}.

Record meta := { Hostvars : gmap string iface }.

(** [type ansibleInventory struct]. The two maps are the allocated maps
    of [main] (lines 218-219) and what the loop makes of them: there [Groups]
    holds, under every key, a pointer to a group allocated for that key alone
    (lines 157 and 168), and [Hostvars], under every name, a map made for that
    name alone (line 178), so the group and the map are stored under their
    key. A [nil] map and a pointer or a map shared by two keys, which the loop
    never produces, have no counterpart here; the properties below are about
    inventories reached from [initInventory]. *)
Record ansibleInventory := {
  Groups : gmap string ansibleGroup;
  Meta : meta;
}.

(** ** Outcomes *)

(** A computation returns, or panics with a run-time error. *)
Inductive result (A : Type) :=
  | Ok (a : A)
  | Panic (msg : string).
Arguments Ok {A} a.
Arguments Panic {A} msg.

#[global] Instance result_ret : MRet result := fun A a => Ok a.

#[global] Instance result_bind : MBind result := fun A B k r =>
  match r with
  | Ok a => k a
  | Panic msg => Panic msg
  end.

(** ** The inventory builder: the loop of [createInventory] *)

(** The two branches at lines 155-163 and 167-173: a group that does not
    exist yet is created with the host as its only member, an existing one
    gets the host appended. *)
Definition addHost (key name : string) (groups : gmap string ansibleGroup)
  : gmap string ansibleGroup :=
  match groups !! key with
  | None => <[key := {| Hosts := [name]; Vars := ∅; Children := [] |}]> groups
  | Some g =>
      <[key := {| Hosts := Hosts g ++ [name];
                  Vars := Vars g; Children := Children g |}]> groups
  end.

(** "Group based on region" *)
Definition groupByRegion (d : droplet) (groups : gmap string ansibleGroup)
  : gmap string ansibleGroup :=
  addHost (ansibleGroupPrefix +:+ Slug (Region d)) (Name d) groups.

(** "Groups based on tags": [for _, t := range d.Tags] *)
Definition groupByTags (d : droplet) (groups : gmap string ansibleGroup)
  : gmap string ansibleGroup :=
  foldl (fun gs t => addHost (ansibleGroupPrefix +:+ t) (Name d) gs)
        groups (Tags d).

(** Lines 177-179: make sure the host has an entry in [ai.Meta.Hostvars]. *)
Definition ensureHostvars (name : string) (hv : gmap string iface)
  : gmap string iface :=
  match hv !! name with
  | None => <[name := IMap ∅]> hv
  | Some _ => hv
  end.

(** Lines 181-187: scan [d.Networks.V4]; at the first entry of type
    "public" store its address and [break]. The store goes through the type
    assertion [.(map[string]interface{})], which panics on anything that is
    not a map. *)
Fixpoint setAnsibleHost (v4 : list netV4) (name : string)
  (hv : gmap string iface) : result (gmap string iface) :=
  match v4 with
  | [] => Ok hv
  | n :: rest =>
      if decide (v4_Type n = "public") then
        match hv !! name with
        | Some (IMap m) =>
            Ok (<[name := IMap (<[ansibleHostKey := IString (v4_IpAddress n)]> m)]> hv)
        | Some _ =>
            Panic "interface conversion: interface {} is not map[string]interface {}"
        | None =>
            Panic "interface conversion: interface {} is nil, not map[string]interface {}"
        end
      else setAnsibleHost rest name hv
  end.

(** One iteration of [for _, d := range dResponse.Droplets]. *)
Definition processDroplet (d : droplet) (inv : ansibleInventory)
  : result ansibleInventory :=
  let groups := groupByTags d (groupByRegion d (Groups inv)) in
  let hv := ensureHostvars (Name d) (Hostvars (Meta inv)) in
  hv' ← setAnsibleHost (V4 (Networks d)) (Name d) hv;
  Ok {| Groups := groups; Meta := {| Hostvars := hv' |} |}.

(** The whole loop, lines 153-188. *)
Fixpoint createInventoryLoop (ds : list droplet) (inv : ansibleInventory)
  : result ansibleInventory :=
  match ds with
  | [] => Ok inv
  | d :: rest => inv' ← processDroplet d inv; createInventoryLoop rest inv'
  end.

(** [main] allocates both maps of the global [ai] before the loop runs
    (lines 218-219). *)
Definition initInventory : ansibleInventory :=
  {| Groups := ∅; Meta := {| Hostvars := ∅ |} |}.

(** The inventory built for a decoded list of droplets. *)
Definition build (ds : list droplet) : result ansibleInventory :=
  createInventoryLoop ds initInventory.

(** ** The process around the loop *)

(** What the rest of the program can observe: the global [ai], the bytes
    written to standard output so far, and the exit status once [os.Exit]
    has been called. *)
Record process := {
  ai : ansibleInventory;
  stdout : string;
  exitCode : option Z;
}.

Definition newline : string := String (ascii_of_nat 10) EmptyString.

(** [createInventory] after the fetch: [decoded] and [err] are what
    [json.Unmarshal] left in [dResponse.Droplets] and returned. A decoding
    error is reported with [fmt.Println] (which prints its operands separated
    by a space, the verb uninterpreted) and the loop runs all the same. *)
Definition createInventory (decoded : list droplet) (err : option string)
  (p : process) : result process :=
  let out :=
    match err with
    | Some e =>
        stdout p +:+ "error: unmarshal failed, %s" +:+ newline +:+ " " +:+ e
                 +:+ newline
    | None => stdout p
    end in
  inv ← createInventoryLoop decoded (ai p);
  Ok {| ai := inv; stdout := out; exitCode := exitCode p |}.

(** ** The serializer: [printInventory] *)

(** The values stored in [printMap]: a group, or [ai.Meta]. *)
Inductive printVal :=
  | PGroup (g : ansibleGroup)
  | PMeta (m : meta).

(** Lines 194-202. [order] is the order in which [range ai.Groups] yields
    the entries of the map, which Go leaves unspecified. *)
Definition printMapOf (order : list (string * ansibleGroup)) (m : meta)
  : gmap string printVal :=
  <[metaKey := PMeta m]>
    (foldl (fun pm kv => <[kv.1 := PGroup kv.2]> pm) ∅ order).

(** What [json.Marshal] returns: the bytes, or an error. *)
Inductive encoded :=
  | Bytes (b : string)
  | EncodeError (err : string).

Section Serializer.

(** [json.Marshal] on the type of [printMap]. *)
Variable marshal : gmap string printVal -> encoded.

(** Lines 192-211. The receiver [a] is not read: the body works on the
    global [ai]. *)
Definition printInventory (a : ansibleInventory)
  (order : list (string * ansibleGroup)) (p : process) : process :=
  let printMap := printMapOf order (Meta (ai p)) in
  match marshal printMap with
  | EncodeError err =>
      {| ai := ai p;
         stdout := stdout p +:+ "error: marshal failed, " +:+ err;
         exitCode := Some 1%Z |}
  | Bytes jsonOut =>
      {| ai := ai p; stdout := stdout p +:+ jsonOut; exitCode := exitCode p |}
  end.

End Serializer.

(** ** The JSON encoder *)

(** [encoding/json] on the values of this program: an object lists its keys
    in sorted order, a struct its fields in declaration order, a field tagged
    [omitempty] is left out when empty, and a float that is NaN or infinite
    is an [UnsupportedValueError]. How a string is quoted and escaped is left
    to [encodeString]. *)
Section Encoder.

Variable encodeString : string -> string.

Definition joinComma (parts : list string) : string :=
  match parts with
  | [] => EmptyString
  | q :: qs => foldl (fun acc r => acc +:+ "," +:+ r) q qs
  end.

Definition sortKeys {A} (kvs : list (string * A)) : list (string * A) :=
  merge_sort (fun x y => String.leb x.1 y.1) kvs.

(** All the encodings, or the first error. *)
Fixpoint allBytes (parts : list encoded) : string + list string :=
  match parts with
  | [] => inr []
  | EncodeError e :: _ => inl e
  | Bytes b :: rest =>
      match allBytes rest with
      | inl e => inl e
      | inr bs => inr (b :: bs)
      end
  end.

Definition member (kv : string * encoded) : encoded :=
  match kv.2 with
  | Bytes b => Bytes (encodeString kv.1 +:+ ":" +:+ b)
  | EncodeError e => EncodeError e
  end.

Definition object (kvs : list (string * encoded)) : encoded :=
  match allBytes (member <$> kvs) with
  | inl e => EncodeError e
  | inr bs => Bytes ("{" +:+ joinComma bs +:+ "}")
  end.

Definition array (parts : list encoded) : encoded :=
  match allBytes parts with
  | inl e => EncodeError e
  | inr bs => Bytes ("[" +:+ joinComma bs +:+ "]")
  end.

Definition marshalFloat (x : float64) : encoded :=
  match x with
  | F64Finite repr => Bytes repr
  | F64NaN => EncodeError "json: unsupported value: NaN"
  | F64Inf false => EncodeError "json: unsupported value: +Inf"
  | F64Inf true => EncodeError "json: unsupported value: -Inf"
  end.

Fixpoint marshalIface (v : iface) : encoded :=
  match v with
  | INil => Bytes "null"
  | IBool true => Bytes "true"
  | IBool false => Bytes "false"
  | IString s => Bytes (encodeString s)
  | IFloat x => marshalFloat x
  | ISlice l => array (marshalIface <$> l)
  | IMap m => object (sortKeys (map_to_list (marshalIface <$> m)))
  end.

Definition marshalStrings (l : list string) : encoded :=
  array ((fun s => Bytes (encodeString s)) <$> l).

Definition marshalVars (m : gmap string iface) : encoded :=
  object (sortKeys (map_to_list (marshalIface <$> m))).

(** [ansibleGroup]: "hosts", then "vars,omitempty", then
    "children,omitempty". A slice without elements is printed as [null],
    the encoding of the nil slice. *)
Definition marshalGroup (g : ansibleGroup) : encoded :=
  object
    ([("hosts", match Hosts g with [] => Bytes "null" | l => marshalStrings l end)]
     ++ (if decide (Vars g = ∅) then [] else [("vars", marshalVars (Vars g))])
     ++ (match Children g with
         | [] => []
         | l => [("children", marshalStrings l)]
         end)).

Definition marshalMeta (m : meta) : encoded :=
  object [("hostvars", marshalVars (Hostvars m))].

Definition marshalPrintVal (v : printVal) : encoded :=
  match v with
  | PGroup g => marshalGroup g
  | PMeta m => marshalMeta m
  end.

Definition jsonMarshal (printMap : gmap string printVal) : encoded :=
  object (sortKeys (map_to_list (marshalPrintVal <$> printMap))).

End Encoder.

(** The encoding of a string that needs no escape: the string in double
    quotes. *)
Definition quoted (s : string) : string :=
  String (ascii_of_nat 34) s +:+ String (ascii_of_nat 34) EmptyString.

(** ** Sample data *)

Definition mkV4 (type ip : string) : netV4 :=
  {| v4_IpAddress := ip; v4_Netmask := "255.255.240.0";
     v4_Gateway := "10.0.0.1"; v4_Type := type |}.

Definition mkV6 (type ip : string) : netV6 :=
  {| v6_IpAddress := ip; v6_Netmask := 64%Z;
     v6_Gateway := "2604:a880::1"; v6_Type := type |}.

Definition mkDroplet (id : Z) (name slug : string) (tags : list string)
  (v4 : list netV4) (v6 : list netV6) : droplet :=
  {| Id := id; Name := name; Features := [];
     Region := {| Slug := slug; region_Name := slug |};
     Image := {| image_id := 0%Z; image_name := EmptyString |};
     Networks := {| V4 := v4; V6 := v6 |};
     Tags := tags |}.

(** The two droplets of the README. *)
Definition vps2 : droplet :=
  mkDroplet 1%Z "vps2" "nyc3" ["web"] [mkV4 "public" "206.81.0.1"] [].
Definition vps3 : droplet :=
  mkDroplet 2%Z "vps3" "nyc3" ["web"; "db"] [mkV4 "public" "104.248.0.1"] [].

(** Two droplets that share the name "web", and one named "web" without
    a public address. *)
Definition webOld : droplet :=
  mkDroplet 10%Z "web" "nyc3" [] [mkV4 "public" "1.2.3.4"] [].
Definition webNew : droplet :=
  mkDroplet 11%Z "web" "sfo1" [] [mkV4 "public" "5.6.7.8"] [].
Definition webPrivate : droplet :=
  mkDroplet 12%Z "web" "nyc3" [] [mkV4 "private" "10.132.0.2"] [].

(** A droplet tagged with the slug of another droplet's region, and one
    tagged with the slug of its own region. *)
Definition appNyc : droplet :=
  mkDroplet 20%Z "app" "nyc3" ["sfo1"] [mkV4 "public" "159.65.0.1"] [].
Definition dbSfo : droplet :=
  mkDroplet 21%Z "db" "sfo1" [] [mkV4 "public" "159.65.0.2"] [].
Definition edge : droplet :=
  mkDroplet 30%Z "edge" "nyc3" ["nyc3"] [mkV4 "public" "159.65.0.3"] [].

(** Two public IPv4 entries; a repeated tag; a public address on IPv6
    only. *)
Definition lb : droplet :=
  mkDroplet 40%Z "lb" "ams3" ["web"; "web"]
    [mkV4 "private" "10.133.0.4"; mkV4 "public" "1.2.3.4";
     mkV4 "public" "5.6.7.8"] [].
Definition six : droplet :=
  mkDroplet 50%Z "six" "fra1" []
    [mkV4 "private" "10.135.0.5"] [mkV6 "public" "2604:a880::2"].

Definition startProcess : process :=
  {| ai := initInventory; stdout := EmptyString; exitCode := None |}.

(** ** Vocabulary of the specification *)

(** The host list of the group stored under [k]; a group that does not
    exist has no host. *)
Definition hostsOf (k : string) (groups : gmap string ansibleGroup)
  : list string :=
  match groups !! k with
  | Some g => Hosts g
  | None => []
  end.

(** How often [x] occurs in [l]. *)
Definition occurrences (x : string) (l : list string) : nat :=
  length (filter (fun y => y = x) l).

(** How many of the tags [tags] name the group [k]. *)
Definition tagHits (k : string) (tags : list string) : nat :=
  length (filter (fun t => ansibleGroupPrefix +:+ t = k) tags).

(** What one droplet appends to the host list of the group [k]: its name
    once if [k] is its region group, then once for every tag naming [k]. *)
Definition contribution (k : string) (d : droplet) : list string :=
  (if decide (ansibleGroupPrefix +:+ Slug (Region d) = k) then [Name d] else [])
  ++ replicate (tagHits k (Tags d)) (Name d).

(** The group keys one droplet touches, and those of a list of droplets. *)
Definition keysOf (d : droplet) : list string :=
  (ansibleGroupPrefix +:+ Slug (Region d))
  :: ((fun t => ansibleGroupPrefix +:+ t) <$> Tags d).

Definition groupKeys (ds : list droplet) : gset string :=
  list_to_set (ds ≫= keysOf).

(** The group-to-host-set view of an inventory. *)
Definition membership (inv : ansibleInventory) : gmap string (gset string) :=
  (fun g => list_to_set (Hosts g)) <$> Groups inv.

(** The address of the first entry of type "public", if there is one. *)
Definition firstPublic (v4 : list netV4) : option string :=
  v4_IpAddress <$> head (filter (fun n => v4_Type n = "public") v4).

(** The address the loop leaves for host [h]: the one chosen by the last
    droplet named [h] that has a public IPv4 entry. *)
Definition chosenAddress (h : string) (ds : list droplet) : option string :=
  last (omap (fun d => if decide (Name d = h)
                       then firstPublic (V4 (Networks d)) else None) ds).

Definition entryOf (o : option string) : gmap string iface :=
  match o with
  | Some ip => {[ ansibleHostKey := IString ip ]}
  | None => ∅
  end.

(** The value of ["ansible_host"] in the hostvars of host [h]. *)
Definition ansibleHostOf (h : string) (inv : ansibleInventory) : option iface :=
  match Hostvars (Meta inv) !! h with
  | Some (IMap m) => m !! ansibleHostKey
  | _ => None
  end.

(** How many memberships in the group of slug or tag [t] one droplet
    has: one if [t] is its region slug, and one for each time [t] occurs
    among its tags. *)
Definition memberships (t : string) (d : droplet) : nat :=
  (if decide (Slug (Region d) = t) then 1 else 0) + occurrences t (Tags d).

(** How many memberships in the group of [t] the droplets named [h] have
    together. *)
Definition listed (h t : string) (ds : list droplet) : nat :=
  sum_list_with (fun d => if decide (Name d = h) then memberships t d else 0)
                ds.


(** No entry of the list is of type "public". *)
Definition noPublicV4 (v4 : list netV4) : Prop :=
  Forall (fun n => v4_Type n ≠ "public") v4.
Definition noPublicV6 (v6 : list netV6) : Prop :=
  Forall (fun n => v6_Type n ≠ "public") v6.

(** A value the JSON encoder has no text for: a float that is NaN or
    infinite, directly or inside a slice or a map. *)
Inductive unsupported : iface → Prop :=
  | unsupported_nan : unsupported (IFloat F64NaN)
  | unsupported_inf neg : unsupported (IFloat (F64Inf neg))
  | unsupported_slice l v :
      v ∈ l → unsupported v → unsupported (ISlice l)
  | unsupported_map m k v :
      m !! k = Some v → unsupported v → unsupported (IMap m).

(** An inventory that holds such a value, among the hostvars or among the
    variables of a group. *)
Definition unrepresentable (inv : ansibleInventory) : Prop :=
  (∃ h v, Hostvars (Meta inv) !! h = Some v ∧ unsupported v)
  ∨ (∃ k g x v, Groups inv !! k = Some g ∧ Vars g !! x = Some v
                ∧ unsupported v).

(** The invariant of the group mapping: every key carries the prefix. *)
Definition prefixedKeys (inv : ansibleInventory) : Prop :=
  ∀ k, k ∈ dom (Groups inv) → ∃ s, k = ansibleGroupPrefix +:+ s.

(** The process after the inventory of the README droplets is built. *)
Definition builtProcess : process :=
  match createInventory [vps2; vps3] None startProcess with
  | Ok p => p
  | Panic _ => startProcess
  end.

(** An inventory with a NaN among the variables of a host. *)
Definition nanInventory : ansibleInventory :=
  {| Groups := {[ "do_nyc3" := {| Hosts := ["vps2"]; Vars := ∅;
                                  Children := [] |} ]};
     Meta := {| Hostvars :=
       {[ "vps2" := IMap {[ "load" := IFloat F64NaN ]} ]} |} |}.

(** ** Start-up, fetch and [main] *)

(** [const doApi string = "https://api.digitalocean.com/v2"] *)
Definition doApi : string := "https://api.digitalocean.com/v2".

(** [var environVars]: the required environment variables, each with the
    text shown when it is missing. *)
Definition environVars : gmap string string :=
  {[ "DO_TOKEN" := "The Digital Ocean token API access key" ]}.

(** [type doClient struct] *)
Record doClient := { api : string; token : string }.

(** The environment of the process is a map from names to values.
    [os.LookupEnv] gives the value and whether the variable is present;
    [os.Getenv] gives the value, empty when the variable is absent. *)
Definition LookupEnv (env : gmap string string) (k : string) : string * bool :=
  match env !! k with
  | Some v => (v, true)
  | None => (EmptyString, false)
  end.

Definition Getenv (env : gmap string string) (k : string) : string :=
  (LookupEnv env k).1.

(** The line [assertEnvironSet] prints for a missing variable. *)
Definition missingLine (kv : string * string) : string :=
  "error: " +:+ kv.1 +:+ " environment variable is missing, " +:+ kv.2
            +:+ newline.

(** The body of [for k, v := range environVars], on the pair of [hasVars]
    and the output so far. *)
Definition checkEnviron (env : gmap string string) (st : bool * string)
  (kv : string * string) : bool * string :=
  if (LookupEnv env kv.1).2 then st
  else (false, st.2 +:+ missingLine kv).

(** Lines 88-103. [order] is the order in which [range environVars] yields
    the entries. *)
Definition assertEnvironSet (order : list (string * string))
  (env : gmap string string) (p : process) : process :=
  let st := foldl (checkEnviron env) (true, stdout p) order in
  {| ai := ai p; stdout := st.2;
     exitCode := if st.1 then exitCode p else Some 1%Z |}.

(** Lines 106-108. *)
Definition createDoClient (env : gmap string string) : doClient :=
  {| api := doApi; token := Getenv env "DO_TOKEN" |}.

(** A request as [doGet] builds it, and what the network answers: a
    transport error of [hc.Do], or a response with its status code, the
    bytes [ioutil.ReadAll] returned and the error it returned with them. *)
Record request := {
  method : string;
  url : string;
  header : list (string * string);
}.

Inductive reply :=
  | TransportError (err : string)
  | Response (status : Z) (body : string) (readErr : option string).

(** What the program takes from outside: the error of [http.NewRequest]
    for a method and a URL, the text [req.URL] prints as, the network,
    [json.Unmarshal] into a [dropletsResponse] (the droplets it decoded and
    its error), [json.Marshal], and the orders in which [range] yields the
    entries of the two maps. *)
Record runtime := {
  newRequestError : string → string → option string;
  urlString : string → string;
  roundTrip : request → reply;
  unmarshal : string → list droplet * option string;
  marshal : gmap string printVal → encoded;
  rangeEnviron : list (string * string);
  rangeGroups : gmap string ansibleGroup → list (string * ansibleGroup);
}.

(** The orders of a runtime enumerate the maps they range over. *)
Definition rangesMaps (rt : runtime) : Prop :=
  rangeEnviron rt ≡ₚ map_to_list environVars
  ∧ ∀ groups, rangeGroups rt groups ≡ₚ map_to_list groups.

(** The process together with the requests it has sent. *)
Record world := { proc : process; sent : list request }.

Definition printf (s : string) (w : world) : world :=
  {| proc := {| ai := ai (proc w); stdout := stdout (proc w) +:+ s;
                exitCode := exitCode (proc w) |};
     sent := sent w |}.

Definition exit (code : Z) (w : world) : world :=
  {| proc := {| ai := ai (proc w); stdout := stdout (proc w);
                exitCode := Some code |};
     sent := sent w |}.

Definition send (req : request) (w : world) : world :=
  {| proc := proc w; sent := sent w ++ [req] |}.

(** Lines 111-138: the world after the call and the bytes returned. A
    failure to build the request or to reach the server ends the process; a
    failure to read the body is reported and the bytes read are returned. *)
Definition doGet (rt : runtime) (c : doClient) (endpoint : string)
  (w : world) : world * string :=
  match newRequestError rt "GET" (api c +:+ endpoint) with
  | Some err =>
      (exit 1 (printf ("error: failed to create request to " +:+ endpoint
                       +:+ ", " +:+ err +:+ newline) w),
       EmptyString)
  | None =>
      let req := {| method := "GET"; url := api c +:+ endpoint;
                    header := [("Authorization", "Bearer " +:+ token c)] |} in
      match roundTrip rt req with
      | TransportError err =>
          (exit 1 (printf ("error: failed to get " +:+ urlString rt (url req)
                           +:+ ", " +:+ err +:+ newline) (send req w)),
           EmptyString)
      | Response _ b None => (send req w, b)
      | Response _ b (Some err) =>
          (printf ("error: failed to read body, " +:+ err +:+ newline)
                  (send req w), b)
      end
  end.

(** Lines 141-189, the method as a whole: fetch, decode, loop. *)
Definition fetchInventory (rt : runtime) (c : doClient) (w : world)
  : result world :=
  let fetched := doGet rt c "/droplets" w in
  match exitCode (proc fetched.1) with
  | Some _ => Ok fetched.1
  | None =>
      let dResponse := unmarshal rt fetched.2 in
      p ← createInventory dResponse.1 dResponse.2 (proc fetched.1);
      Ok {| proc := p; sent := sent fetched.1 |}
  end.

(** Lines 213-225. The program starts with nothing written and nothing
    sent. *)
Definition main (rt : runtime) (env : gmap string string) : result world :=
  let checked := assertEnvironSet (rangeEnviron rt) env startProcess in
  match exitCode checked with
  | Some _ => Ok {| proc := checked; sent := [] |}
  | None =>
      let initialised := {| ai := initInventory; stdout := stdout checked;
                            exitCode := exitCode checked |} in
      let doClient := createDoClient env in
      w ← fetchInventory rt doClient {| proc := initialised; sent := [] |};
      match exitCode (proc w) with
      | Some _ => Ok w
      | None =>
          Ok {| proc := printInventory (marshal rt) (ai (proc w))
                          (rangeGroups rt (Groups (ai (proc w)))) (proc w);
                sent := sent w |}
      end
  end.

(** The lines the fetch and the decoding print in front of the document. *)
Definition readErrorLine (readErr : option string) : string :=
  match readErr with
  | Some err => "error: failed to read body, " +:+ err +:+ newline
  | None => EmptyString
  end.

Definition unmarshalErrorLine (err : option string) : string :=
  match err with
  | Some e => "error: unmarshal failed, %s" +:+ newline +:+ " " +:+ e +:+ newline
  | None => EmptyString
  end.

(** The request [main] sends for a token. *)
Definition dropletsRequest (tok : string) : request :=
  {| method := "GET";
     url := "https://api.digitalocean.com/v2/droplets";
     header := [("Authorization", "Bearer " +:+ tok)] |}.

(** A runtime for examples: requests are well formed, the server answers
    [answer], the decoder returns [decoded], maps are ranged over in the
    order of [map_to_list]. *)
Definition sampleRuntime (answer : reply)
  (decoded : list droplet * option string) : runtime :=
  {| newRequestError := fun _ _ => None;
     urlString := fun u => u;
     roundTrip := fun _ => answer;
     unmarshal := fun _ => decoded;
     marshal := jsonMarshal quoted;
     rangeEnviron := map_to_list environVars;
     rangeGroups := map_to_list |}.

(** The required variables that are absent, and the lines reporting
    them. *)
Definition missingVars (env : gmap string string)
  (order : list (string * string)) : list (string * string) :=
  filter (fun kv => env !! kv.1 = None) order.

Definition missingReport (l : list (string * string)) : string :=
  foldr (fun kv acc => missingLine kv +:+ acc) EmptyString l.

(** A group as the loop makes it: hosts, and neither variables nor
    children. *)
Definition hostsOnly (g : ansibleGroup) : Prop :=
  Hosts g ≠ [] ∧ Vars g = ∅ ∧ Children g = [].

(** The number of entries of all host lists together. *)
Definition totalMemberships (groups : gmap string ansibleGroup) : nat :=
  sum_list_with (fun kv => length (Hosts kv.2)) (map_to_list groups).

(** ** Groups *)

Section Groups.

Implicit Types (groups : gmap string ansibleGroup) (k key name : string).

Lemma hostsOf_addHost key name k groups :
  hostsOf k (addHost key name groups)
  = hostsOf k groups ++ (if decide (key = k) then [name] else []).
Proof.
  unfold hostsOf, addHost.
  destruct (decide (key = k)) as [->|Hne].
  - destruct (groups !! k) as [g|] eqn:Hk; by rewrite lookup_insert_eq.
  - destruct (groups !! key) as [g|]; rewrite lookup_insert_ne //;
      by rewrite app_nil_r.
Qed.

Lemma dom_addHost key name groups :
  dom (addHost key name groups) = {[ key ]} ∪ dom groups.
Proof.
  unfold addHost. destruct (groups !! key); by rewrite dom_insert_L.
Qed.

Lemma hostsOf_tags name tags k groups :
  hostsOf k (foldl (fun gs t => addHost (ansibleGroupPrefix +:+ t) name gs)
                   groups tags)
  = hostsOf k groups ++ replicate (tagHits k tags) name.
Proof.
  unfold tagHits. revert groups.
  induction tags as [|t tags IH]; intros groups; simpl.
  - by rewrite app_nil_r.
  - rewrite IH hostsOf_addHost filter_cons.
    destruct (decide (ansibleGroupPrefix +:+ t = k)); simpl.
    + by rewrite -app_assoc.
    + by rewrite app_nil_r.
Qed.

Lemma dom_tags name tags groups :
  dom (foldl (fun gs t => addHost (ansibleGroupPrefix +:+ t) name gs)
             groups tags)
  = list_to_set ((fun t => ansibleGroupPrefix +:+ t) <$> tags) ∪ dom groups.
Proof.
  revert groups. induction tags as [|t tags IH]; intros groups; simpl.
  - set_solver.
  - rewrite IH dom_addHost. set_solver.
Qed.

Lemma hostsOf_droplet d k groups :
  hostsOf k (groupByTags d (groupByRegion d groups))
  = hostsOf k groups ++ contribution k d.
Proof.
  unfold groupByTags, groupByRegion, contribution.
  by rewrite hostsOf_tags hostsOf_addHost -app_assoc.
Qed.

Lemma dom_droplet d groups :
  dom (groupByTags d (groupByRegion d groups))
  = list_to_set (keysOf d) ∪ dom groups.
Proof.
  unfold groupByTags, groupByRegion, keysOf.
  rewrite dom_tags dom_addHost. set_solver.
Qed.

End Groups.

(** ** Host variables *)

Section Hostvars.

Implicit Types (hv : gmap string iface) (name h : string).

Lemma firstPublic_nil : firstPublic [] = None.
Proof. done. Qed.

Lemma firstPublic_cons n v4 :
  firstPublic (n :: v4)
  = if decide (v4_Type n = "public") then Some (v4_IpAddress n)
    else firstPublic v4.
Proof.
  unfold firstPublic. rewrite filter_cons.
  by destruct (decide (v4_Type n = "public")).
Qed.

(** The first public entry wins: whatever follows it is not read. *)
Lemma firstPublic_split pre n post :
  Forall (fun n' => v4_Type n' ≠ "public") pre →
  v4_Type n = "public" →
  firstPublic (pre ++ n :: post) = Some (v4_IpAddress n).
Proof.
  intros Hpre Hn. induction Hpre as [|n' pre Hn' _ IH]; simpl.
  - rewrite firstPublic_cons. by destruct (decide _).
  - rewrite firstPublic_cons. by destruct (decide _).
Qed.

Lemma firstPublic_None v4 :
  firstPublic v4 = None ↔ Forall (fun n => v4_Type n ≠ "public") v4.
Proof.
  induction v4 as [|n v4 IH]; [done|].
  rewrite firstPublic_cons Forall_cons.
  destruct (decide (v4_Type n = "public")); naive_solver.
Qed.


(** On an entry that is a map the scan cannot panic, and it stores the
    address [firstPublic] selects. *)
Lemma setAnsibleHost_map v4 name hv m :
  hv !! name = Some (IMap m) →
  setAnsibleHost v4 name hv
  = Ok (match firstPublic v4 with
        | Some ip => <[name := IMap (<[ansibleHostKey := IString ip]> m)]> hv
        | None => hv
        end).
Proof.
  intros Hm. induction v4 as [|n v4 IH]; [done|].
  simpl. rewrite firstPublic_cons.
  destruct (decide (v4_Type n = "public")); [by rewrite Hm|done].
Qed.

Lemma ensureHostvars_lookup name h hv :
  ensureHostvars name hv !! h
  = match hv !! h with
    | Some v => Some v
    | None => if decide (name = h) then Some (IMap ∅) else None
    end.
Proof.
  unfold ensureHostvars.
  destruct (decide (name = h)) as [->|Hne].
  - destruct (hv !! h) eqn:Hh; [by rewrite Hh|].
    by rewrite lookup_insert_eq.
  - destruct (hv !! name); [by destruct (hv !! h)|].
    rewrite lookup_insert_ne //. by destruct (hv !! h).
Qed.

Lemma chosenAddress_nil h : chosenAddress h [] = None.
Proof. done. Qed.

Lemma chosenAddress_snoc h ds d :
  chosenAddress h (ds ++ [d])
  = if decide (Name d = h)
    then match firstPublic (V4 (Networks d)) with
         | Some ip => Some ip
         | None => chosenAddress h ds
         end
    else chosenAddress h ds.
Proof.
  unfold chosenAddress. rewrite omap_app. simpl.
  destruct (decide (Name d = h)); [|by rewrite app_nil_r].
  destruct (firstPublic _); [by rewrite last_snoc|by rewrite app_nil_r].
Qed.

Lemma chosenAddress_absent h ds :
  h ∉ Name <$> ds → chosenAddress h ds = None.
Proof.
  induction ds as [|d ds IH] using rev_ind; [done|].
  rewrite fmap_app not_elem_of_app chosenAddress_snoc.
  intros [Hds Hd]. destruct (decide (Name d = h)) as [<-|]; [|by apply IH].
  set_solver.
Qed.

(** The chosen address comes from a public IPv4 entry of a droplet with
    that name. *)
Lemma chosenAddress_Some h ds ip :
  chosenAddress h ds = Some ip →
  ∃ d, d ∈ ds ∧ Name d = h ∧ firstPublic (V4 (Networks d)) = Some ip.
Proof.
  induction ds as [|d ds IH] using rev_ind; [done|].
  rewrite chosenAddress_snoc.
  destruct (decide (Name d = h)) as [Hd|Hd].
  - destruct (firstPublic (V4 (Networks d))) as [ip'|] eqn:Hfp.
    + intros [= <-]. exists d. set_solver.
    + intros (d' & ? & ?)%IH. exists d'. set_solver.
  - intros (d' & ? & ?)%IH. exists d'. set_solver.
Qed.

Lemma chosenAddress_None h ds :
  (∀ d, d ∈ ds → Name d = h → firstPublic (V4 (Networks d)) = None) →
  chosenAddress h ds = None.
Proof.
  intros Hall. destruct (chosenAddress h ds) as [ip|] eqn:Hc; [|done].
  apply chosenAddress_Some in Hc as (d & Hd & Hn & Hfp).
  by rewrite (Hall d Hd Hn) in Hfp.
Qed.

(** Droplets after the last one that supplies an address do not matter. *)
Lemma chosenAddress_app h ds1 ds2 :
  chosenAddress h ds2 = None →
  chosenAddress h (ds1 ++ ds2) = chosenAddress h ds1.
Proof.
  unfold chosenAddress. rewrite omap_app.
  destruct (omap _ ds2) as [|x l] eqn:Hds2; [by rewrite app_nil_r|].
  intros Hlast. exfalso. revert Hlast. clear.
  revert x. induction l as [|y l IH]; intros x; [done|]. apply IH.
Qed.

Lemma insert_entryOf o ip :
  <[ansibleHostKey := IString ip]> (entryOf o) = entryOf (Some ip).
Proof.
  destruct o as [ip'|]; simpl.
  - by rewrite insert_singleton_eq.
  - by rewrite insert_empty.
Qed.

End Hostvars.

(** ** The loop *)

Section Loop.

Implicit Types (inv : ansibleInventory) (ds : list droplet).

Lemma createInventoryLoop_app ds1 ds2 inv :
  createInventoryLoop (ds1 ++ ds2) inv
  = createInventoryLoop ds1 inv ≫= createInventoryLoop ds2.
Proof.
  revert inv. induction ds1 as [|d ds1 IH]; intros inv; [done|].
  simpl. destruct (processDroplet d inv) as [inv'|msg]; [apply IH|done].
Qed.

Lemma build_snoc ds d :
  build (ds ++ [d]) = build ds ≫= processDroplet d.
Proof.
  unfold build. rewrite createInventoryLoop_app.
  destruct (createInventoryLoop ds initInventory) as [inv|]; [|done].
  simpl. by destruct (processDroplet d inv).
Qed.

(** One iteration from a state whose entry for the host, if any, is a
    map: it returns, the groups get the droplet's memberships and the
    hostvars the address of its first public IPv4 entry. *)
Lemma processDroplet_ok d inv :
  (∀ v, Hostvars (Meta inv) !! Name d = Some v → ∃ m, v = IMap m) →
  ∃ m, ensureHostvars (Name d) (Hostvars (Meta inv)) !! Name d = Some (IMap m)
    ∧ processDroplet d inv
      = Ok {| Groups := groupByTags d (groupByRegion d (Groups inv));
              Meta := {| Hostvars :=
                match firstPublic (V4 (Networks d)) with
                | Some ip =>
                    <[Name d := IMap (<[ansibleHostKey := IString ip]> m)]>
                      (ensureHostvars (Name d) (Hostvars (Meta inv)))
                | None => ensureHostvars (Name d) (Hostvars (Meta inv))
                end |} |}.
Proof.
  intros Hmap.
  assert (∃ m, ensureHostvars (Name d) (Hostvars (Meta inv)) !! Name d
               = Some (IMap m)) as [m Hm].
  { rewrite ensureHostvars_lookup.
    destruct (Hostvars (Meta inv) !! Name d) as [v|] eqn:Hv.
    - destruct (Hmap v eq_refl) as [m ->]. by exists m.
    - exists ∅. by rewrite decide_True. }
  exists m. split; [done|].
  unfold processDroplet. by rewrite (setAnsibleHost_map _ _ _ m).
Qed.

(** What the loop builds from the empty inventory of [main]. *)
Lemma build_spec ds :
  ∃ a, build ds = Ok a
    ∧ (∀ k, hostsOf k (Groups a) = ds ≫= contribution k)
    ∧ dom (Groups a) = groupKeys ds
    ∧ (∀ h, Hostvars (Meta a) !! h
            = if decide (h ∈ Name <$> ds)
              then Some (IMap (entryOf (chosenAddress h ds))) else None).
Proof.
  induction ds as [|d ds IH] using rev_ind.
  { exists initInventory. split_and!; [done|done|done|].
    intros h. simpl. by rewrite lookup_empty. }
  destruct IH as (a & Hbuild & Hhosts & Hdom & Hhv).
  destruct (processDroplet_ok d a) as (m & Hm & Hstep).
  { intros v. rewrite Hhv. case_decide; [|done]. intros [= <-]. eauto. }
  eexists. split; [by rewrite build_snoc Hbuild|]. simpl.
  assert (m = entryOf (chosenAddress (Name d) ds)) as ->.
  { revert Hm. rewrite ensureHostvars_lookup Hhv.
    case_decide as Hin.
    - by intros [= <-].
    - rewrite decide_True // chosenAddress_absent //. by intros [= <-]. }
  split_and!.
  - intros k. by rewrite hostsOf_droplet Hhosts bind_app /= app_nil_r.
  - rewrite dom_droplet Hdom /groupKeys bind_app /= app_nil_r. set_solver.
  - intros h. rewrite fmap_app chosenAddress_snoc.
    assert (∀ o : option string,
      (match o with
       | Some ip =>
           <[Name d := IMap (<[ansibleHostKey := IString ip]>
                               (entryOf (chosenAddress (Name d) ds)))]>
             (ensureHostvars (Name d) (Hostvars (Meta a)))
       | None => ensureHostvars (Name d) (Hostvars (Meta a))
       end) !! h
      = if decide (h ∈ (Name <$> ds) ++ [Name d])
        then Some (IMap (entryOf
               (if decide (Name d = h)
                then match o with
                     | Some ip => Some ip
                     | None => chosenAddress h ds
                     end
                else chosenAddress h ds)))
        else None) as Hgoal; [|apply Hgoal].
    intros o. destruct (decide (Name d = h)) as [<-|Hne].
    + destruct (decide (Name d ∈ (Name <$> ds) ++ [Name d])) as [_|Hn];
        [|set_solver].
      destruct o as [ip|]; [by rewrite lookup_insert_eq insert_entryOf|done].
    + assert (ensureHostvars (Name d) (Hostvars (Meta a)) !! h
              = Hostvars (Meta a) !! h) as Hother.
      { rewrite ensureHostvars_lookup decide_False //.
        by destruct (Hostvars (Meta a) !! h). }
      assert ((h ∈ (Name <$> ds) ++ [Name d]) ↔ h ∈ Name <$> ds) as Hiff
        by set_solver.
      destruct o as [ip|]; rewrite ?lookup_insert_ne // Hother Hhv;
        repeat case_decide; naive_solver.
Qed.

End Loop.

(** ** Group names *)

Section Names.

(** Prefixing puts the three characters of [ansibleGroupPrefix] in front. *)
Lemma prefix_unfold s :
  ansibleGroupPrefix +:+ s
  = String "d"%char (String "o"%char (String "_"%char s)).
Proof. reflexivity. Qed.

Lemma prefix_inj s t :
  ansibleGroupPrefix +:+ s = ansibleGroupPrefix +:+ t → s = t.
Proof. rewrite !prefix_unfold. by intros [= ->]. Qed.

Lemma prefix_not_meta s : ansibleGroupPrefix +:+ s ≠ metaKey.
Proof. rewrite prefix_unfold. discriminate. Qed.

Lemma tagHits_prefix t tags :
  tagHits (ansibleGroupPrefix +:+ t) tags = occurrences t tags.
Proof.
  unfold tagHits, occurrences.
  induction tags as [|t' tags IH]; [done|].
  rewrite !filter_cons.
  destruct (decide (t' = t)) as [->|Hne].
  - rewrite decide_True //=. by rewrite IH.
  - rewrite decide_False //. by intros ?%prefix_inj.
Qed.

Lemma tagHits_pos k tags :
  (0 < tagHits k tags)%nat ↔ ∃ t, t ∈ tags ∧ ansibleGroupPrefix +:+ t = k.
Proof.
  unfold tagHits. induction tags as [|t tags IH]; simpl.
  - split; [lia|]. intros (t & Ht & _). by apply elem_of_nil in Ht.
  - rewrite filter_cons. destruct (decide (ansibleGroupPrefix +:+ t = k)).
    + split; [|simpl; lia]. intros _. exists t. split; [left|done].
    + rewrite IH. split.
      * intros (t' & ? & ?). exists t'. split; [by right|done].
      * intros (t' & [->|?]%elem_of_cons & ?); [done|by exists t'].
Qed.

Lemma elem_of_contribution h k d :
  h ∈ contribution k d
  ↔ Name d = h ∧ (ansibleGroupPrefix +:+ Slug (Region d) = k
                  ∨ ∃ t, t ∈ Tags d ∧ ansibleGroupPrefix +:+ t = k).
Proof.
  unfold contribution. rewrite elem_of_app elem_of_replicate -tagHits_pos.
  destruct (decide (ansibleGroupPrefix +:+ Slug (Region d) = k)).
  - rewrite list_elem_of_singleton. naive_solver lia.
  - rewrite elem_of_nil. naive_solver lia.
Qed.

Lemma elem_of_keysOf k d :
  k ∈ keysOf d
  ↔ ansibleGroupPrefix +:+ Slug (Region d) = k
    ∨ ∃ t, t ∈ Tags d ∧ ansibleGroupPrefix +:+ t = k.
Proof.
  unfold keysOf. rewrite elem_of_cons list_elem_of_fmap. naive_solver.
Qed.

Lemma elem_of_groupKeys k ds :
  k ∈ groupKeys ds
  ↔ ∃ d s, d ∈ ds ∧ (s = Slug (Region d) ∨ s ∈ Tags d)
           ∧ k = ansibleGroupPrefix +:+ s.
Proof.
  unfold groupKeys. rewrite elem_of_list_to_set list_elem_of_bind.
  setoid_rewrite elem_of_keysOf. naive_solver.
Qed.

(** Membership in the host list of a group of the built inventory. *)
Lemma elem_of_hosts h k ds :
  h ∈ ds ≫= contribution k
  ↔ ∃ d, d ∈ ds ∧ Name d = h
         ∧ (ansibleGroupPrefix +:+ Slug (Region d) = k
            ∨ ∃ t, t ∈ Tags d ∧ ansibleGroupPrefix +:+ t = k).
Proof.
  rewrite list_elem_of_bind. setoid_rewrite elem_of_contribution.
  naive_solver.
Qed.

End Names.

(** ** Properties of the builder *)

(** C6. Every key of the group mapping of a built inventory is the prefix
    "do_" followed by the region slug or by a tag of one of the droplets,
    taken as it is; so no group is stored under "_meta". *)
Theorem group_keys_are_prefixed (ds : list droplet) :
  ∃ a, build ds = Ok a
    ∧ ∀ k, k ∈ dom (Groups a) →
        (∃ d s, d ∈ ds ∧ (s = Slug (Region d) ∨ s ∈ Tags d)
                ∧ k = "do_" +:+ s)
        ∧ k ≠ "_meta".
Proof.
  destruct (build_spec ds) as (a & Hbuild & _ & Hdom & _).
  exists a. split; [done|]. intros k. rewrite Hdom elem_of_groupKeys.
  intros (d & s & Hd & Hs & ->). split; [by exists d, s|].
  apply prefix_not_meta.
Qed.

(** C9. The builder is total: for every list of droplets, empty tag lists
    and empty network lists included, the loop returns an inventory without
    a panic, writes nothing to standard output, leaves the exit status alone,
    and drops no droplet: each one has its hostvars entry and is listed in
    its region group and in the group of each of its tags. *)
Theorem builder_total (ds : list droplet) (out : string) (code : option Z) :
  ∃ a, createInventory ds None
         {| ai := initInventory; stdout := out; exitCode := code |}
       = Ok {| ai := a; stdout := out; exitCode := code |}
    ∧ build ds = Ok a
    ∧ ∀ d, d ∈ ds →
        is_Some (Hostvars (Meta a) !! Name d)
        ∧ Name d ∈ hostsOf (ansibleGroupPrefix +:+ Slug (Region d)) (Groups a)
        ∧ ∀ t, t ∈ Tags d →
            Name d ∈ hostsOf (ansibleGroupPrefix +:+ t) (Groups a).
Proof.
  destruct (build_spec ds) as (a & Hbuild & Hhosts & _ & Hhv).
  exists a. split_and!; [|done|].
  - unfold createInventory. simpl. fold (build ds). by rewrite Hbuild.
  - intros d Hd. split_and!.
    + rewrite Hhv. destruct (decide _) as [_|Hn]; [done|].
      destruct Hn. by apply list_elem_of_fmap_2.
    + rewrite Hhosts elem_of_hosts. exists d. auto.
    + intros t Ht. rewrite Hhosts elem_of_hosts. exists d.
      split_and!; [done|done|]. right. by exists t.
Qed.

(** C5. Building a list of droplets and building a permutation of it give
    the same mapping from group name to set of host names. *)
Theorem membership_order_independent (ds ds' : list droplet) :
  ds ≡ₚ ds' →
  ∃ a a', build ds = Ok a ∧ build ds' = Ok a' ∧ membership a = membership a'.
Proof.
  intros Hperm.
  destruct (build_spec ds) as (a & Hbuild & Hhosts & Hdom & _).
  destruct (build_spec ds') as (a' & Hbuild' & Hhosts' & Hdom' & _).
  exists a, a'. split_and!; [done|done|].
  apply map_eq. intros k. unfold membership. rewrite !lookup_fmap.
  assert (dom (Groups a) = dom (Groups a')) as Hdoms.
  { rewrite Hdom Hdom'. unfold groupKeys. apply set_eq. intros x.
    rewrite !elem_of_list_to_set. by rewrite Hperm. }
  specialize (Hhosts k). specialize (Hhosts' k). unfold hostsOf in *.
  destruct (Groups a !! k) as [g|] eqn:Hg;
    destruct (Groups a' !! k) as [g'|] eqn:Hg'; simpl.
  - f_equal. rewrite Hhosts Hhosts'. apply set_eq. intros x.
    rewrite !elem_of_list_to_set. by rewrite Hperm.
  - apply (elem_of_dom_2 (D := gset string)) in Hg.
    apply (not_elem_of_dom_2 (D := gset string)) in Hg'. by rewrite Hdoms in Hg.
  - apply (elem_of_dom_2 (D := gset string)) in Hg'.
    apply (not_elem_of_dom_2 (D := gset string)) in Hg. by rewrite Hdoms in Hg.
  - done.
Qed.

Lemma membership_order_independent_witness :
  ∃ a a', build [vps2; vps3] = Ok a ∧ build [vps3; vps2] = Ok a'
          ∧ membership a = membership a'.
Proof. apply membership_order_independent. apply perm_swap. Defined.

(** ** Counting memberships *)

Section Counting.

Lemma occurrences_app x l1 l2 :
  occurrences x (l1 ++ l2) = (occurrences x l1 + occurrences x l2)%nat.
Proof. unfold occurrences. by rewrite filter_app length_app. Qed.

Lemma occurrences_replicate x y n :
  occurrences x (replicate n y) = if decide (y = x) then n else 0%nat.
Proof.
  unfold occurrences. induction n as [|n IH]; simpl.
  - by destruct (decide (y = x)).
  - rewrite filter_cons. destruct (decide (y = x)); simpl; by rewrite IH.
Qed.

Lemma occurrences_pos x l : (0 < occurrences x l)%nat ↔ x ∈ l.
Proof.
  unfold occurrences. induction l as [|y l IH]; simpl.
  - split; [lia|by intros ?%elem_of_nil].
  - rewrite filter_cons elem_of_cons. destruct (decide (y = x)); simpl.
    + split; [by left|lia].
    + rewrite IH. naive_solver.
Qed.

Lemma occurrences_contribution h t d :
  occurrences h (contribution (ansibleGroupPrefix +:+ t) d)
  = if decide (Name d = h) then memberships t d else 0%nat.
Proof.
  unfold contribution, memberships.
  rewrite occurrences_app occurrences_replicate tagHits_prefix.
  destruct (decide (Slug (Region d) = t)) as [->|Hne].
  - rewrite decide_True //. unfold occurrences. rewrite filter_cons.
    by destruct (decide (Name d = h)).
  - rewrite decide_False; [|by intros ?%prefix_inj].
    by destruct (decide (Name d = h)).
Qed.

Lemma occurrences_hosts h t ds :
  occurrences h (ds ≫= contribution (ansibleGroupPrefix +:+ t))
  = listed h t ds.
Proof.
  unfold listed. induction ds as [|d ds IH]; [done|].
  by rewrite bind_cons occurrences_app occurrences_contribution IH.
Qed.

Lemma listed_app h t ds1 ds2 :
  listed h t (ds1 ++ ds2) = (listed h t ds1 + listed h t ds2)%nat.
Proof. unfold listed. by rewrite sum_list_with_app. Qed.

Lemma listed_absent h t ds :
  (∀ d, d ∈ ds → Name d ≠ h) → listed h t ds = 0%nat.
Proof.
  unfold listed. induction ds as [|d ds IH]; [done|].
  intros Hall. simpl. rewrite decide_False.
  - apply IH. intros d' Hd'. apply Hall. by right.
  - apply Hall. by left.
Qed.

End Counting.

(** ** The address of a host *)

Lemma lookup_entryOf o : entryOf o !! ansibleHostKey = IString <$> o.
Proof.
  destruct o as [ip|]; simpl; [by rewrite lookup_singleton_eq|done].
Qed.

(** The value of "ansible_host" after the build is the chosen address. *)
Lemma build_ansibleHost ds :
  ∃ a, build ds = Ok a
    ∧ ∀ h, ansibleHostOf h a = IString <$> chosenAddress h ds.
Proof.
  destruct (build_spec ds) as (a & Hbuild & _ & _ & Hhv).
  exists a. split; [done|]. intros h. unfold ansibleHostOf. rewrite Hhv.
  case_decide as Hin; [apply lookup_entryOf|].
  by rewrite chosenAddress_absent.
Qed.

(** In an input with unique names a name picks its droplet. *)
Lemma unique_name_same_droplet (ds : list droplet) (d d' : droplet) :
  NoDup (Name <$> ds) → d ∈ ds → d' ∈ ds → Name d' = Name d → d' = d.
Proof.
  induction ds as [|x ds IH]; [by intros _ ?%elem_of_nil|].
  rewrite fmap_cons NoDup_cons.
  intros [Hx Hnodup] [->|Hd]%elem_of_cons [->|Hd']%elem_of_cons Hname.
  - done.
  - destruct Hx. rewrite -Hname. by apply list_elem_of_fmap_2.
  - destruct Hx. rewrite Hname. by apply list_elem_of_fmap_2.
  - by apply IH.
Qed.

(** Among the droplets of one name the last one with a public IPv4 entry
    decides: a droplet that is not followed by a droplet of the same name
    with such an entry gets the address of its own first public entry. *)
Lemma first_public_address_wins (ds1 ds2 : list droplet) (d : droplet)
  (pre post : list netV4) (n : netV4) :
  V4 (Networks d) = pre ++ n :: post →
  noPublicV4 pre →
  v4_Type n = "public" →
  (∀ d', d' ∈ ds2 → Name d' = Name d → noPublicV4 (V4 (Networks d'))) →
  ∃ a, build (ds1 ++ d :: ds2) = Ok a
    ∧ ansibleHostOf (Name d) a = Some (IString (v4_IpAddress n)).
Proof.
  intros Hv4 Hpre Hn Hlater.
  destruct (build_ansibleHost (ds1 ++ d :: ds2)) as (a & Hbuild & Hhost).
  exists a. split; [done|]. rewrite Hhost.
  rewrite (assoc_L (++) ds1 [d] ds2) chosenAddress_app.
  - rewrite chosenAddress_snoc decide_True // Hv4.
    by rewrite firstPublic_split.
  - apply chosenAddress_None. intros d' Hd' Hname.
    apply firstPublic_None. by apply Hlater.
Qed.

(** C1. With display names unique across the input, as the data model
    requires, for every droplet "ansible_host" of its hostvars after the
    build is the address of the first entry of its network list, in the
    order given, that is of type "public": the scan stops there, and the
    entries after it, public or not, are not read. *)
Theorem ansible_host_is_first_public (ds : list droplet) (d : droplet)
  (pre post : list netV4) (n : netV4) :
  NoDup (Name <$> ds) →
  d ∈ ds →
  V4 (Networks d) = pre ++ n :: post →
  noPublicV4 pre →
  v4_Type n = "public" →
  ∃ a, build ds = Ok a
    ∧ ansibleHostOf (Name d) a = Some (IString (v4_IpAddress n)).
Proof.
  intros Hnodup Hd Hv4 Hpre Hn.
  destruct (build_ansibleHost ds) as (a & Hbuild & Hhost).
  exists a. split; [done|]. rewrite Hhost.
  assert (∀ d', d' ∈ ds → Name d' = Name d → d' = d) as Huniq.
  { intros d' Hd' Hname. by apply (unique_name_same_droplet ds). }
  assert (firstPublic (V4 (Networks d)) = Some (v4_IpAddress n)) as Hfp.
  { rewrite Hv4. by apply firstPublic_split. }
  clear Hbuild Hhost Hnodup Hv4 Hpre Hn.
  induction ds as [|x ds IH] using rev_ind; [by apply elem_of_nil in Hd|].
  rewrite chosenAddress_snoc.
  destruct (decide (Name x = Name d)) as [Hx|Hx].
  - rewrite (Huniq x) //; [|set_solver]. by rewrite Hfp.
  - apply IH.
    + apply elem_of_app in Hd as [Hd|Hd%list_elem_of_singleton]; [done|].
      by subst x.
    + intros d' Hd' Hname. apply Huniq; [set_solver|done].
Qed.

Lemma ansible_host_is_first_public_witness :
  ∃ a, build [vps2; lb; vps3] = Ok a
    ∧ ansibleHostOf "lb" a = Some (IString "1.2.3.4").
Proof.
  apply (ansible_host_is_first_public [vps2; lb; vps3] lb
           [mkV4 "private" "10.133.0.4"] [mkV4 "public" "5.6.7.8"]
           (mkV4 "public" "1.2.3.4")).
  - apply (bool_decide_unpack _). by vm_compute.
  - right. left.
  - reflexivity.
  - repeat constructor. discriminate.
  - reflexivity.
Defined.

(** Unique names are needed: when two droplets share a name, the address
    of the later one replaces that of the earlier one. *)
Example shared_name_last_address :
  ∃ a, build [webOld; webNew] = Ok a
    ∧ ansibleHostOf "web" a = Some (IString "5.6.7.8").
Proof. eexists. split; [reflexivity|]. by vm_compute. Qed.

(** A key of an association list without repeated keys is listed once. *)
Lemma key_not_listed {A} (k : string) (l : list (string * A)) :
  k ∉ l.*1 → filter (fun kv => kv.1 = k) l = [].
Proof.
  induction l as [|[k' w] l IH]; [done|].
  rewrite fmap_cons not_elem_of_cons filter_cons. simpl.
  intros [Hne Hl]. rewrite decide_False; [|done]. by apply IH.
Qed.

Lemma key_listed_once {A} (k : string) (v : A) (l : list (string * A)) :
  NoDup (l.*1) → (k, v) ∈ l →
  length (filter (fun kv => kv.1 = k) l) = 1%nat.
Proof.
  induction l as [|[k' w] l IH]; [by intros _ ?%elem_of_nil|].
  rewrite fmap_cons NoDup_cons filter_cons. simpl.
  intros [Hk Hnodup] [[= <- <-]|Hin]%elem_of_cons.
  - rewrite decide_True //=. by rewrite key_not_listed.
  - rewrite decide_False; [by apply IH|].
    intros ->. apply Hk, list_elem_of_fmap. by exists (k, v).
Qed.

(** Every droplet has a hostvars entry under its name, a map, and the name
    is a key of the hostvars mapping exactly once. The entry is the empty map
    when no droplet of that name has a public IPv4 entry. *)
Lemma hostvars_entry_without_public (ds : list droplet) (d : droplet) :
  d ∈ ds →
  ∃ a, build ds = Ok a
    ∧ (∃ m, Hostvars (Meta a) !! Name d = Some (IMap m))
    ∧ length (filter (fun kv => kv.1 = Name d)
                     (map_to_list (Hostvars (Meta a)))) = 1%nat
    ∧ ((∀ d', d' ∈ ds → Name d' = Name d → noPublicV4 (V4 (Networks d'))) →
       Hostvars (Meta a) !! Name d = Some (IMap ∅)
       ∧ ansibleHostOf (Name d) a = None).
Proof.
  intros Hd.
  destruct (build_spec ds) as (a & Hbuild & _ & _ & Hhv).
  assert (Hostvars (Meta a) !! Name d
          = Some (IMap (entryOf (chosenAddress (Name d) ds)))) as Hentry.
  { rewrite Hhv. destruct (decide _) as [_|Hn]; [done|].
    destruct Hn. by apply list_elem_of_fmap_2. }
  exists a. split_and!; [done|by eexists| |].
  - apply (elem_of_map_to_list (M := gmap string)) in Hentry.
    eapply key_listed_once; [apply NoDup_fst_map_to_list|done].
  - intros Hnone.
    assert (chosenAddress (Name d) ds = None) as Hc.
    { apply chosenAddress_None. intros d' Hd' Hname.
      apply firstPublic_None. by apply Hnone. }
    unfold ansibleHostOf. by rewrite Hentry Hc.
Qed.

(** C4. With display names unique across the input, as the data model
    requires: every droplet has a hostvars entry under its name, a map,
    possibly empty, and its name is a key of the hostvars mapping exactly
    once; for a droplet without an entry of type "public" in its network
    list the entry is the empty map, so it has no "ansible_host" key. *)
Theorem no_public_interface_no_ansible_host (ds : list droplet)
  (d : droplet) :
  NoDup (Name <$> ds) →
  d ∈ ds →
  ∃ a, build ds = Ok a
    ∧ (∃ m, Hostvars (Meta a) !! Name d = Some (IMap m))
    ∧ length (filter (fun kv => kv.1 = Name d)
                     (map_to_list (Hostvars (Meta a)))) = 1%nat
    ∧ (noPublicV4 (V4 (Networks d)) →
       Hostvars (Meta a) !! Name d = Some (IMap ∅)
       ∧ (∀ m, Hostvars (Meta a) !! Name d = Some (IMap m) →
               m !! ansibleHostKey = None)
       ∧ ansibleHostOf (Name d) a = None).
Proof.
  intros Hnodup Hd.
  destruct (hostvars_entry_without_public ds d Hd)
    as (a & Hbuild & Hentry & Honce & Hnone).
  exists a. split_and!; [done|done|done|].
  intros Hd4. destruct Hnone as [Hempty Habsent].
  { intros d' Hd' Hname.
    by rewrite (unique_name_same_droplet ds d d'). }
  split_and!; [done| |done].
  intros m. rewrite Hempty. by intros [= <-].
Qed.

Lemma no_public_interface_no_ansible_host_witness :
  ∃ a, build [vps2; six; vps3] = Ok a
    ∧ length (filter (fun kv => kv.1 = "six")
                     (map_to_list (Hostvars (Meta a)))) = 1%nat
    ∧ Hostvars (Meta a) !! "six" = Some (IMap ∅)
    ∧ ansibleHostOf "six" a = None.
Proof.
  destruct (no_public_interface_no_ansible_host [vps2; six; vps3] six)
    as (a & Hbuild & _ & Honce & Hnone).
  - apply (bool_decide_unpack _). by vm_compute.
  - right. left.
  - destruct Hnone as (Hempty & _ & Habsent).
    { repeat constructor. discriminate. }
    by exists a.
Defined.

(** Unique names are needed: a droplet without a public address that
    shares its name with one that has a public IPv4 entry shares the hostvars
    entry too, and that entry holds the key. *)
Example shared_name_keeps_address :
  ∃ a, build [webOld; webPrivate] = Ok a
    ∧ ansibleHostOf "web" a = Some (IString "1.2.3.4").
Proof. eexists. split; [reflexivity|]. by vm_compute. Qed.

(** ** Region and tag groups *)

(** C2, as stated, fails when a tag of the droplet is the region slug of
    another droplet: "app" lies in region nyc3 and carries the tag "sfo1",
    so it is listed in the region groups do_nyc3 and do_sfo1. *)
Lemma one_region_group_counterexample :
  ¬ (∀ ds d a,
       d ∈ ds → build ds = Ok a →
       ∀ d', d' ∈ ds →
         (Name d ∈ hostsOf (ansibleGroupPrefix +:+ Slug (Region d')) (Groups a)
          ↔ Slug (Region d') = Slug (Region d))).
Proof.
  intros Hclaim.
  edestruct (Hclaim [appNyc; dbSfo] appNyc) as [Hin _].
  - left.
  - reflexivity.
  - right. left.
  - assert (Slug (Region dbSfo) = Slug (Region appNyc)) as Habs;
      [|discriminate Habs].
    apply Hin. vm_compute. left.
Qed.

(** C2, amended. The name of every droplet is in the host list of the group
    named by the prefix and its region slug, with or without tags. It is in
    the host list of the group of [s] exactly when a droplet of that name
    has region slug [s] or a tag [s]. So the droplet is listed in exactly one
    region group when its name is unique and none of its tags is the slug of
    another region of the input. *)
Theorem region_group_membership (ds : list droplet) (d : droplet) :
  d ∈ ds →
  ∃ a, build ds = Ok a
    ∧ Name d ∈ hostsOf (ansibleGroupPrefix +:+ Slug (Region d)) (Groups a)
    ∧ (∀ s, Name d ∈ hostsOf (ansibleGroupPrefix +:+ s) (Groups a)
            ↔ ∃ d', d' ∈ ds ∧ Name d' = Name d
                    ∧ (Slug (Region d') = s ∨ s ∈ Tags d'))
    ∧ ((∀ d', d' ∈ ds → Name d' = Name d → d' = d) →
       (∀ d', d' ∈ ds → Slug (Region d') ∈ Tags d →
              Slug (Region d') = Slug (Region d)) →
       ∀ d', d' ∈ ds →
         (Name d ∈ hostsOf (ansibleGroupPrefix +:+ Slug (Region d')) (Groups a)
          ↔ Slug (Region d') = Slug (Region d))).
Proof.
  intros Hd.
  destruct (build_spec ds) as (a & Hbuild & Hhosts & _ & _).
  assert (∀ s, Name d ∈ hostsOf (ansibleGroupPrefix +:+ s) (Groups a)
               ↔ ∃ d', d' ∈ ds ∧ Name d' = Name d
                       ∧ (Slug (Region d') = s ∨ s ∈ Tags d')) as Hiff.
  { intros s. rewrite Hhosts elem_of_hosts. split.
    - intros (d' & Hd' & Hname & [Hs%prefix_inj|(t & Ht & <-%prefix_inj)]);
        exists d'; auto.
    - intros (d' & Hd' & Hname & [<-|Hs]); exists d'; split_and!; auto.
      right. by exists s. }
  exists a. split_and!; [done| |done|].
  - apply Hiff. exists d. auto.
  - intros Huniq Htags d' Hd'. rewrite Hiff. split.
    + intros (d'' & Hd'' & Hname & Hs).
      apply Huniq in Hname as ->; [|done].
      destruct Hs as [Hs|Hs]; [done|]. by apply Htags.
    + intros Heq. exists d. auto.
Qed.

Lemma region_group_membership_witness :
  ∃ a, build [vps2; vps3] = Ok a
    ∧ "vps2" ∈ hostsOf "do_nyc3" (Groups a)
    ∧ ∀ d', d' ∈ [vps2; vps3] →
        ("vps2" ∈ hostsOf (ansibleGroupPrefix +:+ Slug (Region d')) (Groups a)
         ↔ Slug (Region d') = "nyc3").
Proof.
  destruct (region_group_membership [vps2; vps3] vps2)
    as (a & Hbuild & Hin & _ & Hone); [left|].
  exists a. split_and!; [done|done|]. apply Hone.
  - intros d' Hd' Hname. apply elem_of_cons in Hd' as [->|Hd']; [done|].
    apply list_elem_of_singleton in Hd' as ->. discriminate Hname.
  - intros d' Hd' Htag. apply list_elem_of_singleton in Htag.
    apply elem_of_cons in Hd' as [->|Hd']; [discriminate Htag|].
    apply list_elem_of_singleton in Hd' as ->. discriminate Htag.
Defined.

(** C3, as stated, fails when a tag of the droplet is its own region slug:
    "edge" carries the tag "nyc3" once and is listed twice in do_nyc3. *)
Lemma once_per_tag_occurrence_counterexample :
  ¬ (∀ ds d t a,
       d ∈ ds → t ∈ Tags d → build ds = Ok a →
       occurrences (Name d) (hostsOf (ansibleGroupPrefix +:+ t) (Groups a))
       = occurrences t (Tags d)).
Proof.
  intros Hclaim.
  pose proof (Hclaim [edge] edge "nyc3" _ (list_elem_of_here _ _)
                (list_elem_of_here _ _) eq_refl) as Habs.
  vm_compute in Habs. discriminate Habs.
Qed.

(** C3, amended. In the host list of the group of a tag [t] the name of a
    droplet occurs once for every occurrence of [t] among the tags of the
    droplets of that name, and once more for each of them whose region slug
    is [t]; repeated tags are counted, not merged. For a droplet whose name
    is unique and whose region slug is not [t] this is the number of
    occurrences of [t] in its own tag list. *)
Theorem tag_group_memberships (ds1 ds2 : list droplet) (d : droplet)
  (t : string) :
  ∃ a, build (ds1 ++ d :: ds2) = Ok a
    ∧ occurrences (Name d) (hostsOf (ansibleGroupPrefix +:+ t) (Groups a))
      = listed (Name d) t (ds1 ++ d :: ds2)
    ∧ (occurrences t (Tags d)
       ≤ occurrences (Name d) (hostsOf (ansibleGroupPrefix +:+ t) (Groups a)))%nat
    ∧ ((∀ d', d' ∈ ds1 ++ ds2 → Name d' ≠ Name d) →
       Slug (Region d) ≠ t →
       occurrences (Name d) (hostsOf (ansibleGroupPrefix +:+ t) (Groups a))
       = occurrences t (Tags d)).
Proof.
  destruct (build_spec (ds1 ++ d :: ds2)) as (a & Hbuild & Hhosts & _ & _).
  exists a. rewrite Hhosts occurrences_hosts.
  assert (listed (Name d) t (ds1 ++ d :: ds2)
          = (listed (Name d) t ds1 + memberships t d
             + listed (Name d) t ds2)%nat) as Hsplit.
  { rewrite listed_app. unfold listed at 2. simpl.
    rewrite decide_True //. fold (listed (Name d) t ds2). lia. }
  split_and!; [done|done| |].
  - rewrite Hsplit. unfold memberships. lia.
  - intros Huniq Hslug. rewrite Hsplit !listed_absent.
    + unfold memberships. by rewrite decide_False.
    + intros d' Hd'. apply Huniq. set_solver.
    + intros d' Hd'. apply Huniq. set_solver.
Qed.

Lemma tag_group_memberships_witness :
  ∃ a, build ([vps2] ++ lb :: [vps3]) = Ok a
    ∧ hostsOf "do_web" (Groups a) = ["vps2"; "lb"; "lb"; "vps3"]
    ∧ occurrences "lb" (hostsOf "do_web" (Groups a)) = 2%nat.
Proof.
  destruct (tag_group_memberships [vps2] [vps3] lb "web")
    as (a & Hbuild & _ & _ & Hcount).
  exists a. split_and!; [done| |].
  - vm_compute in Hbuild. injection Hbuild as Ha. by subst a.
  - change (ansibleGroupPrefix +:+ "web") with "do_web" in Hcount.
    rewrite Hcount; [reflexivity| |discriminate].
    intros d' Hd'. apply elem_of_cons in Hd' as [->|Hd']; [discriminate|].
    apply list_elem_of_singleton in Hd' as ->. discriminate.
Defined.

(** ** IPv4 only *)



(** ** The serializer *)

Section PrintMap.

(** Inserting the entries of a list without repeated keys, in any order,
    gives the map of that list. *)
Lemma foldl_insert_groups (order : list (string * ansibleGroup))
  (acc : gmap string printVal) :
  NoDup (order.*1) →
  foldl (fun pm kv => <[kv.1 := PGroup kv.2]> pm) acc order
  = (PGroup <$> list_to_map order) ∪ acc.
Proof.
  revert acc. induction order as [|[k g] order IH]; intros acc; simpl.
  - intros _. by rewrite fmap_empty left_id_L.
  - rewrite NoDup_cons. intros [Hk Hnodup]. rewrite IH // fmap_insert.
    rewrite -insert_union_r -?insert_union_l //.
    rewrite lookup_fmap fmap_None. by apply not_elem_of_list_to_map_1.
Qed.

(** [printMap] does not depend on the order in which [range] yields the
    groups. *)
Lemma printMapOf_range order (groups : gmap string ansibleGroup) m :
  order ≡ₚ map_to_list groups →
  printMapOf order m = <[metaKey := PMeta m]> (PGroup <$> groups).
Proof.
  intros Hperm. unfold printMapOf.
  assert (NoDup (order.*1)) as Hnodup.
  { rewrite Hperm. apply NoDup_fst_map_to_list. }
  rewrite foldl_insert_groups // right_id_L.
  by rewrite (list_to_map_proper order (map_to_list groups)) //
             list_to_map_to_list.
Qed.

End PrintMap.

(** C8. Serializing the same inventory twice writes the same bytes: the
    output of [printInventory] is a function of the inventory, whatever the
    order in which the two runs range over the groups. *)
Theorem printInventory_deterministic
  (marshal : gmap string printVal → encoded) (a1 a2 : ansibleInventory)
  (order1 order2 : list (string * ansibleGroup)) (p : process) :
  order1 ≡ₚ map_to_list (Groups (ai p)) →
  order2 ≡ₚ map_to_list (Groups (ai p)) →
  printInventory marshal a1 order1 p = printInventory marshal a2 order2 p.
Proof.
  intros H1 H2. unfold printInventory.
  by rewrite (printMapOf_range order1 (Groups (ai p)))
             ?(printMapOf_range order2 (Groups (ai p))).
Qed.

Lemma printInventory_deterministic_witness :
  printInventory (jsonMarshal quoted) initInventory
    (map_to_list (Groups (ai builtProcess))) builtProcess
  = printInventory (jsonMarshal quoted) (ai builtProcess)
      (reverse (map_to_list (Groups (ai builtProcess)))) builtProcess.
Proof.
  apply printInventory_deterministic; [done|apply reverse_Permutation].
Defined.

(** ** The encoder on values it cannot print *)

Section EncoderErrors.

Variable encodeString : string → string.

Lemma allBytes_error parts e :
  EncodeError e ∈ parts → ∃ e', allBytes parts = inl e'.
Proof.
  induction parts as [|[b|e0] parts IH]; simpl.
  - by intros ?%elem_of_nil.
  - intros [?|Hin]%elem_of_cons; [done|].
    destruct (IH Hin) as [e' ->]. by exists e'.
  - intros _. by exists e0.
Qed.

Lemma array_error parts e :
  EncodeError e ∈ parts → ∃ e', array parts = EncodeError e'.
Proof.
  intros [e' He']%allBytes_error. exists e'. unfold array. by rewrite He'.
Qed.

Lemma object_error kvs k e :
  (k, EncodeError e) ∈ kvs →
  ∃ e', object encodeString kvs = EncodeError e'.
Proof.
  intros Hin. destruct (allBytes_error (member encodeString <$> kvs) e)
    as [e' He'].
  - apply list_elem_of_fmap. by exists (k, EncodeError e).
  - exists e'. unfold object. by rewrite He'.
Qed.

(** An object built from a map: an entry that fails makes the object
    fail, wherever sorting puts it. *)
Lemma sorted_object_error {A} (f : A → encoded) (m : gmap string A) k x e :
  m !! k = Some x → f x = EncodeError e →
  ∃ e', object encodeString (sortKeys (map_to_list (f <$> m)))
        = EncodeError e'.
Proof.
  intros Hk Hx. apply (object_error _ k e).
  unfold sortKeys. rewrite merge_sort_Permutation.
  apply elem_of_map_to_list. by rewrite lookup_fmap Hk /= Hx.
Qed.

Lemma marshalIface_unsupported v :
  unsupported v → ∃ e, marshalIface encodeString v = EncodeError e.
Proof.
  induction 1 as [|neg|l v Hin _ [e He]|m k v Hk _ [e He]]; simpl.
  - by eexists.
  - destruct neg; by eexists.
  - apply (array_error _ e), list_elem_of_fmap. by exists v.
  - by apply (sorted_object_error _ m k v e).
Qed.

Lemma marshalVars_unsupported (m : gmap string iface) x v :
  m !! x = Some v → unsupported v →
  ∃ e, marshalVars encodeString m = EncodeError e.
Proof.
  intros Hx [e He]%marshalIface_unsupported.
  by apply (sorted_object_error _ m x v e).
Qed.

Lemma marshalGroup_unsupported g x v :
  Vars g !! x = Some v → unsupported v →
  ∃ e, marshalGroup encodeString g = EncodeError e.
Proof.
  intros Hx Hv.
  destruct (marshalVars_unsupported _ _ _ Hx Hv) as [e He].
  unfold marshalGroup. rewrite decide_False.
  - apply (object_error _ "vars" e). rewrite He. set_solver.
  - intros Hempty. by rewrite Hempty lookup_empty in Hx.
Qed.

Lemma marshalMeta_unsupported m h v :
  Hostvars m !! h = Some v → unsupported v →
  ∃ e, marshalMeta encodeString m = EncodeError e.
Proof.
  intros Hh Hv.
  destruct (marshalVars_unsupported _ _ _ Hh Hv) as [e He].
  apply (object_error _ "hostvars" e). rewrite He. set_solver.
Qed.

(** The encoder fails on the [printMap] of an inventory that holds a
    value it cannot print, provided no group hides under "_meta". *)
Lemma jsonMarshal_unrepresentable inv order :
  order ≡ₚ map_to_list (Groups inv) →
  Groups inv !! metaKey = None →
  unrepresentable inv →
  ∃ e, jsonMarshal encodeString (printMapOf order (Meta inv))
       = EncodeError e.
Proof.
  intros Hperm Hmeta Hbad. rewrite (printMapOf_range _ (Groups inv)) //.
  destruct Hbad as [(h & v & Hh & Hv)|(k & g & x & v & Hk & Hx & Hv)].
  - destruct (marshalMeta_unsupported _ _ _ Hh Hv) as [e He].
    apply (sorted_object_error _ _ metaKey (PMeta (Meta inv)) e);
      [apply lookup_insert_eq|done].
  - destruct (marshalGroup_unsupported _ _ _ Hx Hv) as [e He].
    apply (sorted_object_error _ _ k (PGroup g) e); [|done].
    rewrite lookup_insert_ne; [by rewrite lookup_fmap Hk|].
    intros <-. congruence.
Qed.

End EncoderErrors.

(** Under the invariant of the group mapping no group is stored under the
    key of [ai.Meta]. *)
Lemma prefixedKeys_no_meta inv :
  prefixedKeys inv → Groups inv !! metaKey = None.
Proof.
  intros Hkeys. apply not_elem_of_dom. intros [s Hs]%Hkeys.
  by apply (prefix_not_meta s).
Qed.

(** C7. [printInventory] writes either the whole document or none of it:
    when the encoder returns an error the only bytes written are those of
    the message "error: marshal failed, ..." and the process exits with
    status 1. That is what happens when a value of an inventory, whose group
    keys all carry the prefix, is a NaN or an infinity. *)
Theorem printInventory_all_or_nothing :
  (∀ marshal a order p,
     (∃ doc, marshal (printMapOf order (Meta (ai p))) = Bytes doc
             ∧ printInventory marshal a order p
               = {| ai := ai p; stdout := stdout p +:+ doc;
                    exitCode := exitCode p |})
     ∨ (∃ err, marshal (printMapOf order (Meta (ai p))) = EncodeError err
               ∧ printInventory marshal a order p
                 = {| ai := ai p;
                      stdout := stdout p +:+ "error: marshal failed, " +:+ err;
                      exitCode := Some 1%Z |}))
  ∧ (∀ encodeString a order p,
       order ≡ₚ map_to_list (Groups (ai p)) →
       prefixedKeys (ai p) →
       unrepresentable (ai p) →
       ∃ err, printInventory (jsonMarshal encodeString) a order p
              = {| ai := ai p;
                   stdout := stdout p +:+ "error: marshal failed, " +:+ err;
                   exitCode := Some 1%Z |}).
Proof.
  split.
  - intros marshal a order p. unfold printInventory.
    destruct (marshal _) as [doc|err]; [left|right]; by eexists.
  - intros encodeString a order p Hperm Hkeys Hbad.
    destruct (jsonMarshal_unrepresentable encodeString _ _ Hperm
                (prefixedKeys_no_meta _ Hkeys) Hbad) as [err Herr].
    exists err. unfold printInventory. by rewrite Herr.
Qed.

Lemma printInventory_all_or_nothing_witness :
  printInventory (jsonMarshal quoted) nanInventory
    (map_to_list (Groups nanInventory))
    {| ai := nanInventory; stdout := EmptyString; exitCode := None |}
  = {| ai := nanInventory;
       stdout := "error: marshal failed, json: unsupported value: NaN";
       exitCode := Some 1%Z |}.
Proof.
  destruct (proj2 printInventory_all_or_nothing quoted nanInventory
              (map_to_list (Groups nanInventory))
              {| ai := nanInventory; stdout := EmptyString;
                 exitCode := None |}) as [err Herr].
  - done.
  - intros k Hk. exists "nyc3". simpl in Hk.
    by apply elem_of_dom, lookup_singleton_is_Some in Hk.
  - left. exists "vps2", (IMap {[ "load" := IFloat F64NaN ]}).
    split; [reflexivity|].
    apply (unsupported_map _ "load" (IFloat F64NaN)); [reflexivity|].
    constructor.
  - reflexivity.
Defined.

(** ** Order inside a group *)

(** The host list of a group follows the input order, so a permutation of
    the input can change it while the set of hosts stays the same. *)
Example host_order_follows_input :
  ∃ a a', build [vps2; vps3] = Ok a ∧ build [vps3; vps2] = Ok a'
    ∧ hostsOf "do_nyc3" (Groups a) = ["vps2"; "vps3"]
    ∧ hostsOf "do_nyc3" (Groups a') = ["vps3"; "vps2"].
Proof. do 2 eexists. split_and!; [reflexivity|reflexivity| |]; by vm_compute. Qed.

(** ** The example of the README *)

(** The two droplets "vps2" and "vps3": the groups, the addresses, and the
    document written to standard output. *)
Example readme_inventory :
  ∃ a, build [vps2; vps3] = Ok a
    ∧ hostsOf "do_nyc3" (Groups a) = ["vps2"; "vps3"]
    ∧ hostsOf "do_web" (Groups a) = ["vps2"; "vps3"]
    ∧ hostsOf "do_db" (Groups a) = ["vps3"]
    ∧ ansibleHostOf "vps2" a = Some (IString "206.81.0.1")
    ∧ ansibleHostOf "vps3" a = Some (IString "104.248.0.1").
Proof. eexists. split; [reflexivity|]. by vm_compute. Qed.

Example readme_document :
  stdout (printInventory (jsonMarshal quoted) (ai builtProcess)
            (map_to_list (Groups (ai builtProcess))) builtProcess)
  = "{" +:+ quoted "_meta" +:+ ":{" +:+ quoted "hostvars" +:+ ":{"
    +:+ quoted "vps2" +:+ ":{" +:+ quoted "ansible_host" +:+ ":"
    +:+ quoted "206.81.0.1" +:+ "},"
    +:+ quoted "vps3" +:+ ":{" +:+ quoted "ansible_host" +:+ ":"
    +:+ quoted "104.248.0.1" +:+ "}}},"
    +:+ quoted "do_db" +:+ ":{" +:+ quoted "hosts" +:+ ":["
    +:+ quoted "vps3" +:+ "]},"
    +:+ quoted "do_nyc3" +:+ ":{" +:+ quoted "hosts" +:+ ":["
    +:+ quoted "vps2" +:+ "," +:+ quoted "vps3" +:+ "]},"
    +:+ quoted "do_web" +:+ ":{" +:+ quoted "hosts" +:+ ":["
    +:+ quoted "vps2" +:+ "," +:+ quoted "vps3" +:+ "]}}".
Proof. by vm_compute. Qed.

(** ** Start-up *)

Section Strings.

Lemma append_nil_r (s : string) : s +:+ EmptyString = s.
Proof.
  induction s as [|c s IH]; [done|].
  change (String c (s +:+ EmptyString) = String c s). by rewrite IH.
Qed.

Lemma append_assoc (s1 s2 s3 : string) :
  (s1 +:+ s2) +:+ s3 = s1 +:+ (s2 +:+ s3).
Proof.
  induction s1 as [|c s1 IH]; [done|].
  change (String c ((s1 +:+ s2) +:+ s3) = String c (s1 +:+ (s2 +:+ s3))).
  by rewrite IH.
Qed.

End Strings.

Section Environ.

Implicit Types (env : gmap string string) (order : list (string * string)).

(** The loop over the required variables: the flag stays up as long as no
    variable is missing, and each missing one adds its line. *)
Lemma foldl_checkEnviron env order (hasVars : bool) (out : string) :
  foldl (checkEnviron env) (hasVars, out) order
  = (if decide (missingVars env order = []) then hasVars else false,
     out +:+ missingReport (missingVars env order)).
Proof.
  revert hasVars out. unfold missingVars.
  induction order as [|kv order IH]; intros hasVars out; simpl.
  - by rewrite append_nil_r.
  - rewrite filter_cons. unfold checkEnviron at 2, LookupEnv.
    destruct (decide (env !! kv.1 = None)) as [Hkv|Hkv].
    + rewrite Hkv IH /= append_assoc.
      by destruct (decide (filter _ order = [])).
    + destruct (env !! kv.1) as [v|]; [apply IH|done].
Qed.

Lemma range_environVars order :
  order ≡ₚ map_to_list environVars →
  order = [("DO_TOKEN", "The Digital Ocean token API access key")].
Proof.
  unfold environVars. rewrite map_to_list_singleton.
  intros Hperm. by apply Permutation_singleton_r.
Qed.

End Environ.

(** X1. [assertEnvironSet] reports every required variable that is absent
    from the environment, one line each in the order of the range, and asks
    for exit status 1 exactly when at least one is absent; the presence of
    a variable is what counts, not its value. *)
Theorem assertEnvironSet_reports_all_missing
  (order : list (string * string)) (env : gmap string string) (p : process) :
  assertEnvironSet order env p
  = {| ai := ai p;
       stdout := stdout p +:+ missingReport (missingVars env order);
       exitCode := if decide (missingVars env order = [])
                   then exitCode p else Some 1%Z |}.
Proof.
  unfold assertEnvironSet. rewrite foldl_checkEnviron. simpl.
  by destruct (decide (missingVars env order = [])).
Qed.

(** X2. With the one required variable of the program: when DO_TOKEN is
    present, even with the empty string as its value, [assertEnvironSet]
    changes nothing; when it is absent it prints the line naming it and
    asks for exit status 1. *)
Theorem assertEnvironSet_DO_TOKEN (order : list (string * string))
  (env : gmap string string) (p : process) :
  order ≡ₚ map_to_list environVars →
  (is_Some (env !! "DO_TOKEN") → assertEnvironSet order env p = p)
  ∧ (env !! "DO_TOKEN" = None →
     assertEnvironSet order env p
     = {| ai := ai p;
          stdout := stdout p
            +:+ "error: DO_TOKEN environment variable is missing, The Digital Ocean token API access key"
            +:+ newline;
          exitCode := Some 1%Z |}).
Proof.
  intros ->%range_environVars. unfold assertEnvironSet.
  rewrite foldl_checkEnviron /missingVars filter_cons filter_nil. simpl.
  split.
  - intros [v Hv]. rewrite decide_False; [|by rewrite Hv].
    simpl. rewrite append_nil_r. by destruct p.
  - intros Hnone. by rewrite decide_True.
Qed.

Lemma assertEnvironSet_DO_TOKEN_witness :
  assertEnvironSet (map_to_list environVars) {[ "DO_TOKEN" := EmptyString ]}
    startProcess = startProcess
  ∧ exitCode (assertEnvironSet (map_to_list environVars) ∅ startProcess)
    = Some 1%Z.
Proof.
  split.
  - apply (assertEnvironSet_DO_TOKEN (map_to_list environVars)); [done|].
    by eexists.
  - rewrite (proj2 (assertEnvironSet_DO_TOKEN (map_to_list environVars)
                      ∅ startProcess (reflexivity _))); done.
Defined.

(** ** The program as a whole *)

Section Main.

Implicit Types (rt : runtime) (env : gmap string string) (w : world).

Lemma assertEnvironSet_start rt env :
  rangesMaps rt →
  assertEnvironSet (rangeEnviron rt) env startProcess
  = match env !! "DO_TOKEN" with
    | Some _ => startProcess
    | None =>
        {| ai := initInventory;
           stdout := "error: DO_TOKEN environment variable is missing, The Digital Ocean token API access key"
                     +:+ newline;
           exitCode := Some 1%Z |}
    end.
Proof.
  intros [->%range_environVars _]. unfold assertEnvironSet.
  rewrite foldl_checkEnviron /missingVars filter_cons filter_nil. simpl.
  destruct (env !! "DO_TOKEN") as [tok|] eqn:Htok; by case_decide.
Qed.

Lemma createDoClient_token env tok :
  env !! "DO_TOKEN" = Some tok →
  createDoClient env = {| api := doApi; token := tok |}.
Proof. intros Htok. unfold createDoClient, Getenv, LookupEnv. by rewrite Htok. Qed.

(** The call [c.doGet("/droplets")] of a client made by [createDoClient]. *)
Lemma doGet_droplets rt tok w :
  doGet rt {| api := doApi; token := tok |} "/droplets" w
  = match newRequestError rt "GET" "https://api.digitalocean.com/v2/droplets" with
    | Some err =>
        (exit 1 (printf ("error: failed to create request to /droplets, "
                           +:+ err +:+ newline) w), EmptyString)
    | None =>
        match roundTrip rt (dropletsRequest tok) with
        | TransportError err =>
            (exit 1 (printf ("error: failed to get "
                       +:+ urlString rt "https://api.digitalocean.com/v2/droplets"
                       +:+ ", " +:+ err +:+ newline)
                       (send (dropletsRequest tok) w)), EmptyString)
        | Response _ b readErr =>
            (printf (readErrorLine readErr) (send (dropletsRequest tok) w), b)
        end
    end.
Proof.
  unfold doGet.
  change (api {| api := doApi; token := tok |} +:+ "/droplets")
    with "https://api.digitalocean.com/v2/droplets".
  destruct (newRequestError rt _ _) as [err|]; [done|].
  change {| method := "GET";
            url := "https://api.digitalocean.com/v2/droplets";
            header := [("Authorization",
                        "Bearer " +:+ token {| api := doApi; token := tok |})] |}
    with (dropletsRequest tok).
  destruct (roundTrip rt (dropletsRequest tok)) as [err|status b [err|]];
    try done.
  destruct w as [[inv out code] reqs]. unfold printf, send. simpl.
  by rewrite append_nil_r.
Qed.

(** The order of [range ai.Groups] does not show in what is printed. *)
Lemma printInventory_range (m : gmap string printVal → encoded) a order p :
  order ≡ₚ map_to_list (Groups (ai p)) →
  printInventory m a order p
  = printInventory m (ai p) (map_to_list (Groups (ai p))) p.
Proof.
  intros Hperm. unfold printInventory.
  by rewrite (printMapOf_range order (Groups (ai p)))
             ?(printMapOf_range (map_to_list (Groups (ai p))) (Groups (ai p))).
Qed.

(** [main] once the token is there, the request is well formed and the
    server has answered. *)
Lemma main_after_response rt env tok status body readErr :
  rangesMaps rt →
  env !! "DO_TOKEN" = Some tok →
  newRequestError rt "GET" "https://api.digitalocean.com/v2/droplets" = None →
  roundTrip rt (dropletsRequest tok) = Response status body readErr →
  ∃ a, build (unmarshal rt body).1 = Ok a
    ∧ main rt env
      = Ok {| proc := printInventory (marshal rt) a (map_to_list (Groups a))
                {| ai := a;
                   stdout := readErrorLine readErr
                             +:+ unmarshalErrorLine (unmarshal rt body).2;
                   exitCode := None |};
              sent := [dropletsRequest tok] |}.
Proof.
  intros Hrt Htok Hreq Hreply.
  destruct (build_spec (unmarshal rt body).1) as (a & Hbuild & _).
  exists a. split; [done|].
  unfold main. rewrite assertEnvironSet_start // Htok /=.
  rewrite (createDoClient_token env tok) //.
  unfold fetchInventory. rewrite doGet_droplets Hreq Hreply /=.
  unfold createInventory. simpl. fold (build (unmarshal rt body).1).
  rewrite Hbuild /=. f_equal. f_equal.
  rewrite printInventory_range; [|apply Hrt]. simpl. f_equal. f_equal.
  destruct readErr as [e1|], ((unmarshal rt body).2) as [e2|]; simpl;
    by rewrite ?append_nil_r.
Qed.

End Main.

(** X3. Without DO_TOKEN in the environment [main] ends with exit status 1
    after printing the line that names the variable: no request is sent and
    no document is printed. *)
Theorem main_without_token (rt : runtime) (env : gmap string string) :
  rangesMaps rt →
  env !! "DO_TOKEN" = None →
  main rt env
  = Ok {| proc :=
            {| ai := initInventory;
               stdout := "error: DO_TOKEN environment variable is missing, The Digital Ocean token API access key"
                         +:+ newline;
               exitCode := Some 1%Z |};
          sent := [] |}.
Proof.
  intros Hrt Htok. unfold main. by rewrite assertEnvironSet_start // Htok.
Qed.

Lemma main_without_token_witness :
  ∃ w, main (sampleRuntime (Response 200 EmptyString None) ([vps2], None)) ∅
       = Ok w
    ∧ exitCode (proc w) = Some 1%Z ∧ sent w = [].
Proof.
  eexists. split.
  - apply (main_without_token
             (sampleRuntime (Response 200 EmptyString None) ([vps2], None)) ∅);
      [by split|done].
  - done.
Defined.

(** X4. With DO_TOKEN present, a request that cannot be built or a server
    that cannot be reached ends [main] with exit status 1: the only output
    is the line reporting the failure, the inventory stays empty, and at most
    the one request for "/droplets" carrying the token has been sent. *)
Theorem main_fetch_failure (rt : runtime) (env : gmap string string)
  (tok err : string) :
  rangesMaps rt →
  env !! "DO_TOKEN" = Some tok →
  (newRequestError rt "GET" "https://api.digitalocean.com/v2/droplets"
   = Some err →
   main rt env
   = Ok {| proc :=
             {| ai := initInventory;
                stdout := "error: failed to create request to /droplets, "
                          +:+ err +:+ newline;
                exitCode := Some 1%Z |};
           sent := [] |})
  ∧ (newRequestError rt "GET" "https://api.digitalocean.com/v2/droplets"
     = None →
     roundTrip rt (dropletsRequest tok) = TransportError err →
     main rt env
     = Ok {| proc :=
               {| ai := initInventory;
                  stdout := "error: failed to get "
                    +:+ urlString rt "https://api.digitalocean.com/v2/droplets"
                    +:+ ", " +:+ err +:+ newline;
                  exitCode := Some 1%Z |};
             sent := [dropletsRequest tok] |}).
Proof.
  intros Hrt Htok. split.
  - intros Hreq. unfold main. rewrite assertEnvironSet_start // Htok /=.
    rewrite (createDoClient_token env tok) //.
    unfold fetchInventory. by rewrite doGet_droplets Hreq.
  - intros Hreq Hreply. unfold main.
    rewrite assertEnvironSet_start // Htok /=.
    rewrite (createDoClient_token env tok) //.
    unfold fetchInventory. by rewrite doGet_droplets Hreq Hreply.
Qed.

Lemma main_fetch_failure_witness :
  ∃ w, main (sampleRuntime (TransportError "dial tcp: i/o timeout") ([], None))
            {[ "DO_TOKEN" := "s3cr3t" ]} = Ok w
    ∧ exitCode (proc w) = Some 1%Z
    ∧ sent w = [dropletsRequest "s3cr3t"]
    ∧ ai (proc w) = initInventory.
Proof.
  destruct (main_fetch_failure
              (sampleRuntime (TransportError "dial tcp: i/o timeout") ([], None))
              {[ "DO_TOKEN" := "s3cr3t" ]} "s3cr3t" "dial tcp: i/o timeout")
    as [_ Hnet]; [by split|by vm_compute|].
  eexists. split; [apply Hnet; reflexivity|]. simpl. by split_and!.
Defined.

(** X5. With DO_TOKEN present and an answer from the server, whatever its
    status code, [main] never panics and sends exactly the one request for
    "/droplets". It builds the inventory of the droplets the decoder
    returned, also after an error reading the body or decoding it, and
    prints the line of the read error, the line of the decoding error, and
    then the document; only an error of the encoder gives exit status 1. *)
Theorem main_prints_inventory (rt : runtime) (env : gmap string string)
  (tok : string) (status : Z) (body : string) (readErr : option string) :
  rangesMaps rt →
  env !! "DO_TOKEN" = Some tok →
  newRequestError rt "GET" "https://api.digitalocean.com/v2/droplets" = None →
  roundTrip rt (dropletsRequest tok) = Response status body readErr →
  ∃ a w,
    build (unmarshal rt body).1 = Ok a
    ∧ main rt env = Ok w
    ∧ sent w = [dropletsRequest tok]
    ∧ ai (proc w) = a
    ∧ match marshal rt (<[metaKey := PMeta (Meta a)]> (PGroup <$> Groups a)) with
      | Bytes doc =>
          stdout (proc w)
          = readErrorLine readErr
            +:+ unmarshalErrorLine (unmarshal rt body).2 +:+ doc
          ∧ exitCode (proc w) = None
      | EncodeError err =>
          stdout (proc w)
          = readErrorLine readErr
            +:+ unmarshalErrorLine (unmarshal rt body).2
            +:+ "error: marshal failed, " +:+ err
          ∧ exitCode (proc w) = Some 1%Z
      end.
Proof.
  intros Hrt Htok Hreq Hreply.
  destruct (main_after_response rt env tok status body readErr)
    as (a & Hbuild & Hmain); [done..|].
  exists a. eexists. split_and!; [done|exact Hmain|done| |].
  - unfold printInventory. simpl. by destruct (marshal rt _).
  - unfold printInventory. simpl.
    rewrite (printMapOf_range _ (Groups a)) //.
    destruct (marshal rt _) as [doc|err]; simpl; by rewrite append_assoc.
Qed.

Lemma main_prints_inventory_witness :
  ∃ w,
    main (sampleRuntime (Response 200 EmptyString None) ([vps2], None))
         {[ "DO_TOKEN" := EmptyString ]} = Ok w
    ∧ sent w = [dropletsRequest EmptyString]
    ∧ stdout (proc w)
      = "{" +:+ quoted "_meta" +:+ ":{" +:+ quoted "hostvars" +:+ ":{"
        +:+ quoted "vps2" +:+ ":{" +:+ quoted "ansible_host" +:+ ":"
        +:+ quoted "206.81.0.1" +:+ "}}},"
        +:+ quoted "do_nyc3" +:+ ":{" +:+ quoted "hosts" +:+ ":["
        +:+ quoted "vps2" +:+ "]},"
        +:+ quoted "do_web" +:+ ":{" +:+ quoted "hosts" +:+ ":["
        +:+ quoted "vps2" +:+ "]}}"
    ∧ exitCode (proc w) = None.
Proof.
  destruct (main_prints_inventory
              (sampleRuntime (Response 200 EmptyString None) ([vps2], None))
              {[ "DO_TOKEN" := EmptyString ]} EmptyString 200 EmptyString None)
    as (a & w & _ & Hmain & _); [by split|by vm_compute|done|done|].
  exists w. split; [done|].
  vm_compute in Hmain. injection Hmain as Hw. subst w.
  split_and!; by vm_compute.
Defined.

(** X6. When the decoder returns no droplet, as for an answer without
    droplets or one it cannot parse, [main] still prints a document: that of
    the empty inventory, after the lines of the read and decoding errors, and
    the exit status stays unset. *)
Theorem main_nothing_decoded (rt : runtime) (env : gmap string string)
  (tok : string) (status : Z) (body : string) (readErr : option string)
  (doc : string) :
  rangesMaps rt →
  env !! "DO_TOKEN" = Some tok →
  newRequestError rt "GET" "https://api.digitalocean.com/v2/droplets" = None →
  roundTrip rt (dropletsRequest tok) = Response status body readErr →
  (unmarshal rt body).1 = [] →
  marshal rt {[ metaKey := PMeta {| Hostvars := ∅ |} ]} = Bytes doc →
  main rt env
  = Ok {| proc :=
            {| ai := initInventory;
               stdout := readErrorLine readErr
                         +:+ unmarshalErrorLine (unmarshal rt body).2 +:+ doc;
               exitCode := None |};
          sent := [dropletsRequest tok] |}.
Proof.
  intros Hrt Htok Hreq Hreply Hnone Hdoc.
  destruct (main_after_response rt env tok status body readErr)
    as (a & Hbuild & ->); [done..|].
  rewrite Hnone in Hbuild. injection Hbuild as <-.
  unfold printInventory. simpl.
  rewrite (printMapOf_range _ ∅) // fmap_empty insert_empty Hdoc.
  by rewrite append_assoc.
Qed.

Lemma main_nothing_decoded_witness :
  main (sampleRuntime (Response 401 "unauthorized" None)
          ([], Some "invalid character 'u' looking for beginning of value"))
       {[ "DO_TOKEN" := "expired" ]}
  = Ok {| proc :=
            {| ai := initInventory;
               stdout := "error: unmarshal failed, %s" +:+ newline
                 +:+ " invalid character 'u' looking for beginning of value"
                 +:+ newline
                 +:+ "{" +:+ quoted "_meta" +:+ ":{" +:+ quoted "hostvars"
                 +:+ ":{}}}";
               exitCode := None |};
          sent := [dropletsRequest "expired"] |}.
Proof.
  apply (main_nothing_decoded
           (sampleRuntime (Response 401 "unauthorized" None)
              ([], Some "invalid character 'u' looking for beginning of value"))
           {[ "DO_TOKEN" := "expired" ]} "expired" 401 "unauthorized" None);
    [by split|by vm_compute|done|done|done|by vm_compute].
Defined.

(** ** Running the loop again *)

Section Again.

Implicit Types (inv : ansibleInventory).

(** The groups after one iteration that returns. *)
Lemma processDroplet_groups d inv inv' :
  processDroplet d inv = Ok inv' →
  Groups inv' = groupByTags d (groupByRegion d (Groups inv)).
Proof.
  unfold processDroplet.
  destruct (setAnsibleHost _ _ _) as [hv'|msg]; [|done].
  by intros [= <-].
Qed.

(** Building a list of droplets in two runs is building it in one. *)
Lemma build_app ds1 ds2 a :
  build ds1 = Ok a →
  createInventoryLoop ds2 a = build (ds1 ++ ds2).
Proof.
  intros Hbuild. unfold build in *.
  by rewrite createInventoryLoop_app Hbuild.
Qed.

End Again.

(** X9. The inventory is an accumulator. After [main] has allocated the
    maps and the loop has run over some droplets, a further run of the loop
    over more droplets returns, gives what one run over all of them gives,
    and only appends: every group keeps the hosts it had, in their order,
    followed by the names the further droplets contribute in input order. A
    second run over the same droplets lists every host twice. *)
Theorem second_run_appends (ds1 ds2 : list droplet) :
  ∃ a a', build ds1 = Ok a
    ∧ createInventoryLoop ds2 a = Ok a'
    ∧ build (ds1 ++ ds2) = Ok a'
    ∧ ∀ k, hostsOf k (Groups a')
           = hostsOf k (Groups a) ++ (ds2 ≫= contribution k).
Proof.
  destruct (build_spec ds1) as (a & Hbuild & Hhosts & _).
  destruct (build_spec (ds1 ++ ds2)) as (a' & Hbuild' & Hhosts' & _).
  exists a, a'. split_and!; [done| |done|].
  - by rewrite (build_app ds1 ds2 a).
  - intros k. by rewrite Hhosts' Hhosts bind_app.
Qed.

Lemma second_run_appends_witness :
  ∃ a', createInventoryLoop [vps2; vps3] (ai builtProcess) = Ok a'
    ∧ hostsOf "do_nyc3" (Groups a') = ["vps2"; "vps3"; "vps2"; "vps3"].
Proof.
  destruct (second_run_appends [vps2; vps3] [vps2; vps3])
    as (a & a' & Hbuild & Hloop & _ & Hhosts).
  assert (ai builtProcess = a) as ->.
  { vm_compute in Hbuild. injection Hbuild as <-. by vm_compute. }
  exists a'. split; [done|]. rewrite Hhosts.
  vm_compute in Hbuild. injection Hbuild as <-. by vm_compute.
Defined.

(** X12. Droplets processed later leave the other hosts alone: after a
    further run of the loop over more droplets, every host that none of
    these is named after has the hostvars entry it had before. *)
Theorem second_run_keeps_other_hosts (ds1 ds2 : list droplet) :
  ∃ a a', build ds1 = Ok a
    ∧ createInventoryLoop ds2 a = Ok a'
    ∧ ∀ h, h ∉ Name <$> ds2 →
           Hostvars (Meta a') !! h = Hostvars (Meta a) !! h.
Proof.
  destruct (build_spec ds1) as (a & Hbuild & _ & _ & Hhv).
  destruct (build_spec (ds1 ++ ds2)) as (a' & Hbuild' & _ & _ & Hhv').
  exists a, a'. split_and!; [done| |].
  - by rewrite (build_app ds1 ds2 a).
  - intros h Hh. rewrite Hhv' Hhv chosenAddress_app.
    + rewrite fmap_app. repeat case_decide; set_solver.
    + by apply chosenAddress_absent.
Qed.

(** ** The shape of a built inventory *)

Section Shape.

Implicit Types (groups : gmap string ansibleGroup) (inv : ansibleInventory).

Lemma addHost_hostsOnly key name groups :
  map_Forall (fun _ => hostsOnly) groups →
  map_Forall (fun _ => hostsOnly) (addHost key name groups).
Proof.
  intros Hall. unfold addHost.
  destruct (groups !! key) as [g|] eqn:Hg; apply map_Forall_insert_2; try done.
  destruct (Hall key g Hg) as (_ & Hv & Hc). split_and!; simpl; [|done|done].
  by destruct (Hosts g).
Qed.

Lemma groupByTags_hostsOnly d groups :
  map_Forall (fun _ => hostsOnly) groups →
  map_Forall (fun _ => hostsOnly) (groupByTags d groups).
Proof.
  unfold groupByTags. revert groups.
  induction (Tags d) as [|t tags IH]; intros groups Hall; simpl; [done|].
  by apply IH, addHost_hostsOnly.
Qed.

Lemma createInventoryLoop_hostsOnly ds inv inv' :
  createInventoryLoop ds inv = Ok inv' →
  map_Forall (fun _ => hostsOnly) (Groups inv) →
  map_Forall (fun _ => hostsOnly) (Groups inv').
Proof.
  revert inv. induction ds as [|d ds IH]; intros inv; simpl.
  - by intros [= <-].
  - destruct (processDroplet d inv) as [inv1|msg] eqn:Hstep; [|done].
    simpl. intros Hloop Hall. apply (IH inv1 Hloop).
    rewrite (processDroplet_groups d inv inv1) //.
    by apply groupByTags_hostsOnly, addHost_hostsOnly.
Qed.

Lemma build_hostsOnly ds a :
  build ds = Ok a → map_Forall (fun _ => hostsOnly) (Groups a).
Proof.
  intros Hbuild. apply (createInventoryLoop_hostsOnly ds initInventory a Hbuild).
  apply map_Forall_empty.
Qed.

Lemma unsupported_entryOf o : ¬ unsupported (IMap (entryOf o)).
Proof.
  inversion 1 as [| | |m k v Hk Hv]; subst. destruct o as [ip|]; simpl in Hk.
  - apply lookup_singleton_Some in Hk as [_ <-]. inversion Hv.
  - by rewrite lookup_empty in Hk.
Qed.

End Shape.

(** X10. Every group of a built inventory has at least one host and neither
    variables nor children: the loop never creates an empty group and never
    writes [Vars] or [Children]. *)
Theorem built_groups_hold_hosts_only (ds : list droplet) :
  ∃ a, build ds = Ok a
    ∧ ∀ k g, Groups a !! k = Some g →
        Hosts g ≠ [] ∧ Vars g = ∅ ∧ Children g = [].
Proof.
  destruct (build_spec ds) as (a & Hbuild & _).
  exists a. split; [done|]. intros k g Hg.
  by apply (build_hostsOnly ds a Hbuild k g).
Qed.

(** X11. The variables of a host of a built inventory are the empty map or
    the map with the single key "ansible_host" and a string; so a built
    inventory holds no value the encoder cannot print. *)
Theorem built_inventory_is_representable (ds : list droplet) :
  ∃ a, build ds = Ok a
    ∧ (∀ h v, Hostvars (Meta a) !! h = Some v →
         v = IMap ∅ ∨ ∃ ip, v = IMap {[ ansibleHostKey := IString ip ]})
    ∧ ¬ unrepresentable a.
Proof.
  destruct (build_spec ds) as (a & Hbuild & _ & _ & Hhv).
  exists a. split_and!; [done| |].
  - intros h v. rewrite Hhv. case_decide; [|done]. intros [= <-].
    destruct (chosenAddress h ds) as [ip|]; [right; by exists ip|by left].
  - intros [(h & v & Hh & Hv)|(k & g & x & v & Hk & Hx & Hv)].
    + revert Hh. rewrite Hhv. case_decide; [|done]. intros [= <-].
      by apply unsupported_entryOf in Hv.
    + destruct (build_hostsOnly ds a Hbuild k g Hk) as (_ & Hvars & _).
      by rewrite Hvars lookup_empty in Hx.
Qed.

(** ** Counting all memberships *)

Section Total.

Implicit Types (groups : gmap string ansibleGroup).

Lemma totalMemberships_addHost key name groups :
  totalMemberships (addHost key name groups) = S (totalMemberships groups).
Proof.
  unfold totalMemberships, addHost.
  destruct (groups !! key) as [g|] eqn:Hg.
  - rewrite -insert_delete_eq map_to_list_insert; [|by rewrite lookup_delete_eq].
    rewrite -(map_to_list_delete groups key g) //. simpl.
    rewrite length_app /=. lia.
  - by rewrite map_to_list_insert.
Qed.

Lemma totalMemberships_droplet d groups :
  totalMemberships (groupByTags d (groupByRegion d groups))
  = (totalMemberships groups + S (length (Tags d)))%nat.
Proof.
  unfold groupByTags, groupByRegion.
  assert (∀ gs, totalMemberships
                  (foldl (fun gs t => addHost (ansibleGroupPrefix +:+ t)
                                        (Name d) gs) gs (Tags d))
                = (totalMemberships gs + length (Tags d))%nat) as ->.
  { induction (Tags d) as [|t tags IH]; intros gs; simpl; [lia|].
    rewrite IH totalMemberships_addHost. lia. }
  rewrite totalMemberships_addHost. lia.
Qed.

End Total.

(** A run of the loop that returns adds one entry for every droplet and
    one for each of its tags. *)
Lemma createInventoryLoop_total (ds : list droplet)
  (inv inv' : ansibleInventory) :
  createInventoryLoop ds inv = Ok inv' →
  totalMemberships (Groups inv')
  = (totalMemberships (Groups inv)
     + sum_list_with (fun d => S (length (Tags d))) ds)%nat.
Proof.
  revert inv. induction ds as [|d ds IH]; intros inv; simpl.
  - intros [= <-]. lia.
  - destruct (processDroplet d inv) as [inv1|msg] eqn:Hstep; [|done].
    simpl. intros Hloop. rewrite (IH inv1 Hloop).
    rewrite (processDroplet_groups d inv inv1) // totalMemberships_droplet.
    lia.
Qed.

(** X13. In a built inventory the host lists of all groups together have
    one entry for every droplet and one for each of its tags, repeated tags
    counted: no membership is lost and none is merged. *)
Theorem build_counts_memberships (ds : list droplet) :
  ∃ a, build ds = Ok a
    ∧ totalMemberships (Groups a)
      = sum_list_with (fun d => S (length (Tags d))) ds.
Proof.
  destruct (build_spec ds) as (a & Hbuild & _).
  exists a. split; [done|].
  by rewrite (createInventoryLoop_total ds initInventory a Hbuild).
Qed.

(** ** What is handed to the encoder *)

(** X14. For every order of the range, [printMap] has the key "_meta" and
    the keys of the groups and nothing else; "_meta" holds [ai.Meta], also
    when a group is stored under that key, and every other key holds its
    group. *)
Theorem printMap_lookup (order : list (string * ansibleGroup))
  (groups : gmap string ansibleGroup) (m : meta) :
  order ≡ₚ map_to_list groups →
  printMapOf order m !! "_meta" = Some (PMeta m)
  ∧ (∀ k, k ≠ "_meta" → printMapOf order m !! k = PGroup <$> groups !! k)
  ∧ dom (printMapOf order m) = {[ "_meta" ]} ∪ dom groups.
Proof.
  intros Hperm. rewrite (printMapOf_range order groups) //. split_and!.
  - apply lookup_insert_eq.
  - intros k Hk. by rewrite lookup_insert_ne // lookup_fmap.
  - by rewrite dom_insert_L dom_fmap_L.
Qed.

Lemma printMap_lookup_witness :
  printMapOf
    (map_to_list ({[ "_meta" := {| Hosts := ["vps2"]; Vars := ∅;
                                   Children := [] |} ]}
                  : gmap string ansibleGroup))
    {| Hostvars := ∅ |} !! "_meta"
  = Some (PMeta {| Hostvars := ∅ |}).
Proof.
  by apply (printMap_lookup _
              {[ "_meta" := {| Hosts := ["vps2"]; Vars := ∅;
                               Children := [] |} ]}).
Defined.

(** ** The encoder on a built inventory *)

Section EncoderSuccess.

Variable encodeString : string → string.

Lemma allBytes_ok parts :
  Forall (fun e => ∃ b, e = Bytes b) parts → ∃ bs, allBytes parts = inr bs.
Proof.
  induction 1 as [|e parts [b ->] _ [bs IH]]; simpl; [by eexists|].
  rewrite IH. by eexists.
Qed.

Lemma array_ok parts :
  Forall (fun e => ∃ b, e = Bytes b) parts → ∃ doc, array parts = Bytes doc.
Proof.
  intros [bs Hbs]%allBytes_ok. unfold array. rewrite Hbs. by eexists.
Qed.

Lemma object_ok (kvs : list (string * encoded)) :
  Forall (fun kv => ∃ b, kv.2 = Bytes b) kvs →
  ∃ doc, object encodeString kvs = Bytes doc.
Proof.
  intros Hall. destruct (allBytes_ok (member encodeString <$> kvs)) as [bs Hbs].
  - apply Forall_fmap. eapply Forall_impl; [exact Hall|].
    intros [k e] [b Hb]. simpl in *. subst e. unfold member. simpl.
    by eexists.
  - unfold object. rewrite Hbs. by eexists.
Qed.

Lemma sorted_object_ok {A} (f : A → encoded) (m : gmap string A) :
  (∀ k x, m !! k = Some x → ∃ b, f x = Bytes b) →
  ∃ doc, object encodeString (sortKeys (map_to_list (f <$> m))) = Bytes doc.
Proof.
  intros Hall. apply object_ok. unfold sortKeys.
  rewrite merge_sort_Permutation. apply Forall_forall. intros [k e].
  rewrite elem_of_map_to_list lookup_fmap.
  destruct (m !! k) as [x|] eqn:Hk; [|done]. intros [= <-]. by apply (Hall k).
Qed.

Lemma marshalStrings_ok l : ∃ doc, marshalStrings encodeString l = Bytes doc.
Proof.
  apply array_ok, Forall_fmap, Forall_forall. intros s _. simpl. by eexists.
Qed.

Lemma marshalGroup_ok g :
  hostsOnly g → ∃ doc, marshalGroup encodeString g = Bytes doc.
Proof.
  intros (Hhosts & Hvars & Hchildren). unfold marshalGroup.
  rewrite Hchildren decide_True //. apply object_ok. simpl.
  repeat constructor. simpl. destruct (Hosts g) as [|h l] eqn:Hl; [done|].
  apply marshalStrings_ok.
Qed.

Lemma marshalIface_entryOf o :
  ∃ doc, marshalIface encodeString (IMap (entryOf o)) = Bytes doc.
Proof.
  simpl. apply sorted_object_ok. intros k x Hk.
  destruct o as [ip|]; simpl in Hk.
  - apply lookup_singleton_Some in Hk as [_ <-]. simpl. by eexists.
  - by rewrite lookup_empty in Hk.
Qed.

End EncoderSuccess.

(** X15. Printing a built inventory cannot fail: for every list of
    droplets the encoder, with keys sorted, hosts-only groups and string
    addresses, returns a document, and [printInventory] writes exactly that
    document and leaves the exit status as it was. *)
Theorem built_inventory_is_printed (encodeString : string → string)
  (ds : list droplet) :
  ∃ a doc,
    build ds = Ok a
    ∧ jsonMarshal encodeString
        (<[metaKey := PMeta (Meta a)]> (PGroup <$> Groups a)) = Bytes doc
    ∧ ∀ order receiver out code,
        order ≡ₚ map_to_list (Groups a) →
        printInventory (jsonMarshal encodeString) receiver order
          {| ai := a; stdout := out; exitCode := code |}
        = {| ai := a; stdout := out +:+ doc; exitCode := code |}.
Proof.
  destruct (build_spec ds) as (a & Hbuild & _ & _ & Hhv).
  destruct (sorted_object_ok encodeString (marshalPrintVal encodeString)
              (<[metaKey := PMeta (Meta a)]> (PGroup <$> Groups a)))
    as [doc Hdoc].
  { intros k x. destruct (decide (metaKey = k)) as [<-|Hne].
    - rewrite lookup_insert_eq. intros [= <-]. simpl. unfold marshalMeta.
      apply object_ok. repeat constructor. simpl.
      apply sorted_object_ok. intros h v. rewrite Hhv.
      case_decide; [|done]. intros [= <-]. apply marshalIface_entryOf.
    - rewrite lookup_insert_ne // lookup_fmap.
      destruct (Groups a !! k) as [g|] eqn:Hg; [|done]. intros [= <-]. simpl.
      apply marshalGroup_ok. by apply (build_hostsOnly ds a Hbuild k g). }
  exists a, doc. split_and!; [done|exact Hdoc|].
  intros order receiver out code Hperm. unfold printInventory. simpl.
  rewrite (printMapOf_range order (Groups a)) //.
  unfold jsonMarshal. by rewrite Hdoc.
Qed.

(** ** Nothing but the input *)

(** X16. A built inventory holds nothing the input does not call for: its
    groups are exactly the prefixed region slugs and tags of the droplets,
    the hosts with variables are exactly the names of the droplets, and
    every entry of a host list is the name of a droplet that has the region
    or a tag of that group. *)
Theorem built_inventory_is_exact (ds : list droplet) :
  ∃ a, build ds = Ok a
    ∧ (∀ k, k ∈ dom (Groups a)
            ↔ ∃ d, d ∈ ds ∧ (k = ansibleGroupPrefix +:+ Slug (Region d)
                             ∨ ∃ t, t ∈ Tags d ∧ k = ansibleGroupPrefix +:+ t))
    ∧ (∀ h, h ∈ dom (Hostvars (Meta a)) ↔ ∃ d, d ∈ ds ∧ Name d = h)
    ∧ (∀ k h, h ∈ hostsOf k (Groups a) →
         ∃ d, d ∈ ds ∧ Name d = h
              ∧ (k = ansibleGroupPrefix +:+ Slug (Region d)
                 ∨ ∃ t, t ∈ Tags d ∧ k = ansibleGroupPrefix +:+ t)).
Proof.
  destruct (build_spec ds) as (a & Hbuild & Hhosts & Hdom & Hhv).
  exists a. split_and!; [done| | |].
  - intros k. rewrite Hdom elem_of_groupKeys. split.
    + intros (d & s & Hd & [->| Hs] & ->); exists d; split; auto.
      right. by exists s.
    + intros (d & Hd & [->|(t & Ht & ->)]); eexists d, _; eauto.
  - intros h. rewrite elem_of_dom Hhv.
    case_decide as Hin.
    + split; [|by eexists]. intros _.
      apply list_elem_of_fmap in Hin as (d & -> & Hd). by exists d.
    + split; [by intros [? [=]]|]. intros (d & Hd & <-). destruct Hin.
      by apply list_elem_of_fmap_2.
  - intros k h. rewrite Hhosts elem_of_hosts.
    intros (d & Hd & Hname & Hk). exists d. split_and!; [done|done|].
    destruct Hk as [<-|(t & Ht & <-)]; [by left|right; by exists t].
Qed.

(** X17. After a build a host has no "ansible_host" exactly when none of
    the droplets of that name has a public IPv4 entry; one such droplet
    anywhere in the input is enough for the key to be there. *)
Theorem ansible_host_absent_iff (ds : list droplet) :
  ∃ a, build ds = Ok a
    ∧ ∀ h, ansibleHostOf h a = None
           ↔ ∀ d, d ∈ ds → Name d = h → noPublicV4 (V4 (Networks d)).
Proof.
  destruct (build_ansibleHost ds) as (a & Hbuild & Hhost).
  exists a. split; [done|]. intros h. rewrite Hhost fmap_None. split.
  - intros Hnone d Hd Hname. apply firstPublic_None.
    destruct (firstPublic (V4 (Networks d))) as [ip|] eqn:Hfp; [|done].
    exfalso. revert Hnone Hd Hname Hfp. clear. revert d ip.
    induction ds as [|d' ds IH] using rev_ind; intros d ip.
    + by intros _ ?%elem_of_nil.
    + rewrite chosenAddress_snoc elem_of_app list_elem_of_singleton.
      intros Hnone [Hd| ->] Hname Hfp.
      * destruct (decide (Name d' = h)); [|by eapply IH].
        destruct (firstPublic (V4 (Networks d'))); [done|by eapply IH].
      * by rewrite decide_True // Hfp in Hnone.
  - intros Hall. apply chosenAddress_None. intros d Hd Hname.
    by apply firstPublic_None, Hall.
Qed.
